(** * Gzdec: the chunked gzip decode loop of the gzdec GStreamer element

    A shallow embedding of [init_decoder], [deinit_decoder],
    [decode_message], [gst_gzdec_process_data] and [gst_gzdec_chain]
    from [gstplugin.c], with the declarations of [gstgzdec.h] ([CHUNK],
    [struct ll_buffer]).

    zlib is an external library: its incremental decompressor is an
    interface ([Inflater]) here, and every statement that depends on what
    zlib does names the part of zlib's documented behaviour it relies on
    as a contract on that interface.  A small concrete decompressor
    ([Toy]) implements the interface and the contracts, so that every
    statement can be run on concrete bytes. *)

From Stdlib Require Import ZArith Lia.
From Stdlib.Strings Require Import Byte.
From stdpp Require Import base list gmap.

Local Open Scope Z_scope.
Set Warnings "-clear-no-such-hyp".

Abbreviation byte := Byte.byte.

(** ** Constants of gstgzdec.h and zlib.h *)

(** [#define CHUNK (1024 * 256)] *)
Definition CHUNK : Z := 1024 * 256.

Definition Z_OK : Z := 0.
Definition Z_STREAM_END : Z := 1.
Definition Z_NEED_DICT : Z := 2.
Definition Z_ERRNO : Z := -1.
Definition Z_STREAM_ERROR : Z := -2.
Definition Z_DATA_ERROR : Z := -3.
Definition Z_MEM_ERROR : Z := -4.
Definition Z_BUF_ERROR : Z := -5.
Definition Z_VERSION_ERROR : Z := -6.
Definition MAX_WBITS : Z := 15.

(** [gulong] is a 64-bit unsigned integer (LP64); [+=] on it wraps. *)
Definition gulong_max : Z := 2 ^ 64.
Definition gulong_add (a b : Z) : Z := (a + b) mod gulong_max.

(** [sizeof (struct ll_buffer)]: a pointer, a [gulong] and a pointer. *)
Definition sizeof_ll_buffer : Z := 24.

(** [gint] is a 32-bit signed integer: its values lie below [gint_max]
    and from [- gint_max] on. *)
Definition gint_max : Z := 2 ^ 31.

(** A [gsize] (64 bits, unsigned) converted to [gint], as an argument of
    that type is: the low 32 bits, read in two's complement. *)
Definition gint_of_gsize (n : Z) : Z :=
  let m := n mod 2 ^ 32 in
  if m <? gint_max then m else m - 2 ^ 32.

(** ** Memory *)

(** A pointer is [None] (NULL) or the name of an allocated block. *)
Definition ptr : Type := option nat.

(** The allocator's ledger: the next unused block name and the set of
    blocks that are allocated and not yet freed. *)
Record heap : Type := Heap { brk : nat; live : gset nat }.

(** [g_malloc0 (n)]: NULL when [n] is 0, a fresh zero-filled block
    otherwise (GLib aborts the process when memory runs out, it never
    returns NULL for a non-zero size). *)
Definition g_malloc0 (n_bytes : Z) (h : heap) : ptr * heap :=
  if n_bytes =? 0 then (None, h)
  else (Some (brk h), {| brk := S (brk h); live := {[ brk h ]} ∪ live h |}).

(** [g_free (p)]: nothing when [p] is NULL. *)
Definition g_free (p : ptr) (h : heap) : heap :=
  match p with
  | None => h
  | Some b => {| brk := brk h; live := live h ∖ {[ b ]} |}
  end.

(** [memcpy (dst + off, src, n)] on the contents of the two blocks.  A
    copy that leaves either block is undefined behaviour: [None]. *)
Definition memcpy (dst : list byte) (off : Z) (src : list byte) (n : Z)
  : option (list byte) :=
  if (0 <=? off) && (0 <=? n) && (off + n <=? Z.of_nat (length dst))
     && (n <=? Z.of_nat (length src))
  then Some (take (Z.to_nat off) dst ++ take (Z.to_nat n) src
               ++ drop (Z.to_nat (off + n)) dst)
  else None.

(** [struct ll_buffer], with the address of the node itself and the
    contents of the block [data] points to ([[]] when [data] is NULL).
    The [next] pointers are the order of the list the nodes are kept in. *)
Record ll_buffer : Type := LLBuffer {
  addr : ptr;
  data : ptr;
  dbytes : list byte;
  len : Z
}.

(** A node as [g_malloc0 (sizeof (struct ll_buffer))] returns it. *)
Definition zeroed_node (p : ptr) : ll_buffer :=
  {| addr := p; data := None; dbytes := []; len := 0 |}.

(** ** The decompressor interface *)

(** What one call of [inflate (&stream, Z_NO_FLUSH)] does: the return
    code, how many of the [avail_in] bytes at [next_in] it consumed, the
    bytes it stored at [next_out], and the new internal state. *)
Record inflate_result (zs : Type) : Type := InflateResult {
  ir_ret : Z;
  ir_consumed : nat;
  ir_out : list byte;
  ir_state : zs
}.
Arguments InflateResult {zs} _ _ _ _.
Arguments ir_ret {zs} _.
Arguments ir_consumed {zs} _.
Arguments ir_out {zs} _.
Arguments ir_state {zs} _.

Class Inflater (zs : Type) : Type := {
  (** [inflateInit2 (&stream, windowBits)]: return code and state. *)
  inflateInit2 : Z -> Z * zs;
  (** [inflate]: internal state, the [avail_in] bytes at [next_in],
      [avail_out]. *)
  inflate : zs -> list byte -> Z -> inflate_result zs;
  (** [inflateEnd (&stream)]. *)
  inflateEnd : zs -> zs
}.

(** The fields of [z_stream] the program uses.  [next_in] is the list of
    the [avail_in] bytes readable at the pointer. *)
Record z_stream (zs : Type) : Type := ZStream {
  next_in : list byte;
  avail_out : Z;
  state : zs
}.
Arguments ZStream {zs} _ _ _.
Arguments next_in {zs} _.
Arguments avail_out {zs} _.
Arguments state {zs} _.

Definition avail_in {zs : Type} (strm : z_stream zs) : Z :=
  Z.of_nat (length (next_in strm)).

(** How a block of statements ends. *)
Inductive flow (A : Type) : Type :=
| Go (a : A)                 (* control reaches the end of the block *)
| Return (code : Z) (a : A)  (* a [return code;] inside the block *)
| Undef.                     (* undefined behaviour *)
Arguments Go {A} _.
Arguments Return {A} _ _.
Arguments Undef {A}.

Section Decoder.

Context {zs : Type} `{Inflater zs}.

(** What is outside [decode_message]: the global [stream] and the heap. *)
Record world : Type := World {
  stream : z_stream zs;
  hp : heap
}.

(** [init_decoder]: [avail_in = 0], [next_in = Z_NULL], then
    [inflateInit2 (&stream, 16 + MAX_WBITS)]. *)
Definition init_decoder (h : heap) : Z * world :=
  let '(ret, s) := inflateInit2 (16 + MAX_WBITS) in
  (ret, {| stream := ZStream [] 0 s; hp := h |}).

(** [deinit_decoder]. *)
Definition deinit_decoder (w : world) : world :=
  {| stream := ZStream (next_in (stream w)) (avail_out (stream w))
                 (inflateEnd (state (stream w)));
     hp := hp w |}.

(** The variables of [decode_message] that live across the loops.
    [chain] holds the nodes from [head] up to, not including, [outdata].
    [log] is not a program variable: it records what each [inflate] call
    of this [decode_message] call returned, oldest first. *)
Record dstate : Type := DState {
  wd : world;
  ret : Z;
  chain : list ll_buffer;
  outdata : ll_buffer;
  outlen : Z;
  log : list (inflate_result zs)
}.

(** The four codes of the [switch] that end the call. *)
Definition fatal (c : Z) : bool :=
  (c =? Z_NEED_DICT) || (c =? Z_DATA_ERROR) || (c =? Z_MEM_ERROR)
  || (c =? Z_STREAM_ERROR).

(** [outdata->next = g_malloc0 (sizeof (struct ll_buffer));
     outdata = outdata->next;] *)
Definition next_node (st : dstate) : dstate :=
  let '(q, h) := g_malloc0 sizeof_ll_buffer (hp (wd st)) in
  {| wd := {| stream := stream (wd st); hp := h |};
     ret := ret st;
     chain := chain st ++ [outdata st];
     outdata := zeroed_node q;
     outlen := outlen st;
     log := log st |}.

(** One pass through the body of the inner loop, lines 292-310. *)
Definition drain_step (st : dstate) : flow dstate :=
  (* outdata->data = g_malloc0 (CHUNK); *)
  let '(p, h1) := g_malloc0 CHUNK (hp (wd st)) in
  let od1 := {| addr := addr (outdata st); data := p;
                dbytes := replicate (Z.to_nat CHUNK) x00;
                len := len (outdata st) |} in
  (* stream.avail_out = CHUNK; stream.next_out = outbuffer;
     ret = inflate (&stream, Z_NO_FLUSH); *)
  let r := inflate (state (stream (wd st))) (next_in (stream (wd st))) CHUNK in
  let outbuffer := ir_out r in
  let strm1 := ZStream (drop (ir_consumed r) (next_in (stream (wd st))))
                 (CHUNK - Z.of_nat (length outbuffer)) (ir_state r) in
  let ret1 := ir_ret r in
  if fatal ret1 then
    (* case Z_NEED_DICT: ret = Z_DATA_ERROR;   (falls through)
       case Z_DATA_ERROR: case Z_MEM_ERROR: case Z_STREAM_ERROR:
         (void) inflateEnd (&stream); return ret; *)
    let ret2 := if ret1 =? Z_NEED_DICT then Z_DATA_ERROR else ret1 in
    Return ret2
      {| wd := {| stream := ZStream (next_in strm1) (avail_out strm1)
                              (inflateEnd (state strm1));
                  hp := h1 |};
         ret := ret2; chain := chain st; outdata := od1;
         outlen := outlen st; log := log st ++ [r] |}
  else
    (* processed = CHUNK - stream.avail_out;
       memcpy (outdata->data + outdata->len, outbuffer, processed); *)
    let processed := CHUNK - avail_out strm1 in
    match memcpy (dbytes od1) (len od1) outbuffer processed with
    | None => Undef
    | Some bytes2 =>
      (* outdata->len += processed; *outlen += processed; *)
      Go {| wd := {| stream := strm1; hp := h1 |};
            ret := ret1; chain := chain st;
            outdata := {| addr := addr od1; data := data od1;
                          dbytes := bytes2;
                          len := gulong_add (len od1) processed |};
            outlen := gulong_add (outlen st) processed;
            log := log st ++ [r] |}
    end.

(** The inner [do ... while (stream.avail_out == 0)] loop, lines 291-316.
    [fuel] bounds the number of passes. *)
Fixpoint drain (fuel : nat) (st : dstate) : option (flow dstate) :=
  match fuel with
  | O => None
  | S fuel' =>
    match drain_step st with
    | Go st2 =>
      (* if (stream.avail_out == 0) { outdata->next = ...; } *)
      if avail_out (stream (wd st2)) =? 0 then drain fuel' (next_node st2)
      else Some (Go st2)
    | Return c st2 => Some (Return c st2)
    | Undef => Some Undef
    end
  end.

(** Lines 274-285: the next slice of the input and what is left of it.
    [rest] is the part of the input not yet copied to [inbuffer], the
    [remainder] bytes at [srcidx].  The zero bytes [memset] leaves after
    a short slice are not part of the slice: [inflate] reads [avail_in]
    bytes only. *)
Definition next_slice (rest : list byte) : list byte * list byte :=
  let remainder := Z.of_nat (length rest) in
  if CHUNK <=? remainder
  then (take (Z.to_nat CHUNK) rest, drop (Z.to_nat CHUNK) rest)
  else (rest, []).

(** [stream.avail_in = ...; stream.next_in = inbuffer;] *)
Definition set_input (inbuffer : list byte) (st : dstate) : dstate :=
  {| wd := {| stream := ZStream inbuffer (avail_out (stream (wd st)))
                          (state (stream (wd st)));
              hp := hp (wd st) |};
     ret := ret st; chain := chain st; outdata := outdata st;
     outlen := outlen st; log := log st |}.

(** The outer [do ... while (ret != Z_STREAM_END)] loop, lines 273-322.
    The result carries [rest] as it is when the loop is left. *)
Fixpoint feed (fuel : nat) (rest : list byte) (st : dstate)
  : option (flow (dstate * list byte)) :=
  match fuel with
  | O => None
  | S fuel' =>
    let '(inbuffer, rest1) := next_slice rest in
    let st1 := set_input inbuffer st in
    (* if (stream.avail_in == 0) break; *)
    if avail_in (stream (wd st1)) =? 0 then Some (Go (st1, rest1))
    else
      match drain fuel' st1 with
      | None => None
      | Some Undef => Some Undef
      | Some (Return c st2) => Some (Return c (st2, rest1))
      | Some (Go st2) =>
        (* if (ret != Z_STREAM_END) { outdata->next = ...; } *)
        if ret st2 =? Z_STREAM_END then Some (Go (st2, rest1))
        else feed fuel' rest1 (next_node st2)
      end
  end.

(** The states the inner loop passes through when it is started in
    [st]: the state after every pass (line 310, or line 304 when the
    pass returns) and the state after every new node (line 313). *)
Fixpoint drain_points (fuel : nat) (st : dstate) : list dstate :=
  match fuel with
  | O => []
  | S fuel' =>
    match drain_step st with
    | Go st2 =>
      if avail_out (stream (wd st2)) =? 0
      then st2 :: next_node st2 :: drain_points fuel' (next_node st2)
      else [st2]
    | Return c st2 => [st2]
    | Undef => []
    end
  end.

(** The states the outer loop passes through when it is started in
    [st], each with the number of slices taken from the input so far,
    [k] of them before the loop: the state once the input of a pass is
    set (line 289, or line 288 at the [break]), the states of the inner
    loop, and the state after the new node of line 320. *)
Fixpoint feed_points (fuel : nat) (k : nat) (rest : list byte) (st : dstate)
  : list (nat * dstate) :=
  match fuel with
  | O => []
  | S fuel' =>
    let '(inbuffer, rest1) := next_slice rest in
    let st1 := set_input inbuffer st in
    if avail_in (stream (wd st1)) =? 0 then [(k, st1)]
    else
      (S k, st1) :: map (pair (S k)) (drain_points fuel' st1)
      ++ match drain fuel' st1 with
         | Some (Go st2) =>
           if ret st2 =? Z_STREAM_END then []
           else (S k, next_node st2)
                :: feed_points fuel' (S k) rest1 (next_node st2)
         | _ => []
         end
  end.

(** The final [while (outdata)] loop, lines 329-338: copy the node's
    bytes, then free its block and the node itself. *)
Fixpoint copy_out (nodes : list ll_buffer) (outmsg : list byte)
    (outmsgidx : Z) (h : heap) : option (list byte * heap) :=
  match nodes with
  | [] => Some (outmsg, h)
  | nd :: next =>
    match memcpy outmsg outmsgidx (dbytes nd) (len nd) with
    | None => None
    | Some outmsg1 =>
      copy_out next outmsg1 (gulong_add outmsgidx (len nd))
        (g_free (addr nd) (g_free (data nd) h))
    end
  end.

(** What the caller sees after the call: the return code, [*outmsg] with
    the contents of the block it points to, [*outlen], the world, and the
    log of the [inflate] calls made. *)
Record result : Type := Result {
  r_code : Z;
  r_outmsg : ptr;
  r_bytes : list byte;
  r_outlen : Z;
  r_world : world;
  r_log : list (inflate_result zs)
}.

(** Lines 262-271: the state in which the outer loop is entered.
    [outlen0] is [*outlen] on entry, [ret0] the indeterminate value the
    uninitialised local [ret] starts with. *)
Definition entry (outlen0 ret0 : Z) (w : world) : dstate :=
  (* outdata = g_malloc0 (sizeof (struct ll_buffer)); head = outdata; *)
  let '(p, h0) := g_malloc0 sizeof_ll_buffer (hp w) in
  {| wd := {| stream := stream w; hp := h0 |};
     ret := ret0; chain := []; outdata := zeroed_node p;
     outlen := outlen0; log := [] |}.

(** Lines 324-340: allocate the result, copy the chain, return. *)
Definition finish (st : dstate) : option result :=
  (* outdata = head; *outmsg = g_malloc0 ( *outlen); *)
  let '(m, h1) := g_malloc0 (outlen st) (hp (wd st)) in
  match copy_out (chain st ++ [outdata st])
          (replicate (Z.to_nat (outlen st)) x00) 0 h1 with
  | None => None
  | Some (bytes, h2) =>
    (* return ret == Z_STREAM_END ? Z_OK : Z_DATA_ERROR; *)
    Some {| r_code := if ret st =? Z_STREAM_END then Z_OK else Z_DATA_ERROR;
            r_outmsg := m; r_bytes := bytes; r_outlen := outlen st;
            r_world := {| stream := stream (wd st); hp := h2 |};
            r_log := log st |}
  end.

(** [decode_message (srcmsg, srclen, &outmsg, &outlen)].  [srcmsg] is the
    list of the [srclen] bytes at the pointer ([srclen] is a [gint]: the
    list has fewer than [2^31] bytes), [outmsg0] is [*outmsg] on entry
    with the contents of its block.  The result is [None] when [fuel]
    runs out and [Some None] on undefined behaviour. *)
Definition decode_message (fuel : nat) (srcmsg : list byte)
    (outmsg0 : ptr * list byte) (outlen0 : Z) (ret0 : Z) (w : world)
  : option (option result) :=
  match feed fuel srcmsg (entry outlen0 ret0 w) with
  | None => None
  | Some Undef => Some None
  | Some (Return c (st, _)) =>
    Some (Some {| r_code := c; r_outmsg := fst outmsg0;
                  r_bytes := snd outmsg0; r_outlen := outlen st;
                  r_world := wd st; r_log := log st |})
  | Some (Go (st, _)) => Some (finish st)
  end.

(** [gst_gzdec_process_data (buf)], lines 342-367: the pointer, bytes and
    length wrapped into the output buffer, the contents of the input
    buffer after the call, and the world.  The return code of
    [decode_message] is not looked at; the [g_print] calls are left
    out.

    Line 355 passes [gst_buffer_get_size (buf)], a [gsize], for the
    [gint] parameter [srclen]: [decode_message] is given the first
    [srclen] bytes of the buffer.  With a negative [srclen] the first
    pass of its outer loop takes the branch of lines 281-285, where
    [memcpy (inbuffer, srcidx, remainder)] converts the negative
    [remainder] to a [size_t] far beyond the [CHUNK] bytes of
    [inbuffer]: undefined behaviour.  The [memset] of line 363 uses
    [info.size], the whole buffer. *)
Record processed_data : Type := ProcessedData {
  pd_decodedmsg : ptr;
  pd_outbuf : list byte;
  pd_decodedmsglen : Z;
  pd_buf : list byte;
  pd_world : world
}.

Definition gst_gzdec_process_data (fuel : nat) (buf : list byte) (ret0 : Z)
    (w : world) : option (option processed_data) :=
  (* guchar *srcmsg, *decodedmsg = NULL; gulong decodedmsglen = 0; *)
  let srclen := gint_of_gsize (Z.of_nat (length buf)) in
  if srclen <? 0 then Some None
  else
  match decode_message fuel (take (Z.to_nat srclen) buf) (None, []) 0 ret0 w with
  | None => None
  | Some None => Some None
  | Some (Some r) =>
    (* memset (info.data, 0xff, info.size); *)
    Some (Some {| pd_decodedmsg := r_outmsg r; pd_outbuf := r_bytes r;
                  pd_decodedmsglen := r_outlen r;
                  pd_buf := replicate (length buf) xff;
                  pd_world := r_world r |})
  end.

End Decoder.

Arguments world zs : clear implicits.
Arguments dstate zs : clear implicits.
Arguments result zs : clear implicits.
Arguments processed_data zs : clear implicits.

(** ** The chain function *)

(** The buffer [gst_gzdec_process_data] returns, by what it is built
    from: the pointer and the size handed to [gst_memory_new_wrapped],
    [decodedmsg] and [decodedmsglen], and the contents of the block the
    pointer names.  What GStreamer makes of a NULL pointer is not part
    of the program. *)
Record out_buffer : Type := OutBuffer {
  ob_data : ptr;
  ob_bytes : list byte;
  ob_size : Z
}.

Section Element.

Context {zs : Type} `{Inflater zs}.

(** What [gst_pad_push] returns for a buffer: the answer of the peer
    downstream. *)
Variable gst_pad_push : out_buffer -> Z.

(** The element with what is around it: the world, and the buffers
    pushed on the source pad so far, oldest first. *)
Record element : Type := Element {
  el_world : world zs;
  el_pushed : list out_buffer
}.

(** [gst_gzdec_chain (pad, parent, buf)], lines 371-390: the flow
    returned and the element afterwards.  The [g_print] under
    [filter->silent] is left out; [gst_buffer_new ()] never returns
    NULL, so the test of line 384 does not fail. *)
Definition gst_gzdec_chain (fuel : nat) (buf : list byte) (ret0 : Z)
    (el : element) : option (option (Z * element)) :=
  (* outbuf = gst_gzdec_process_data (buf); gst_buffer_unref (buf); *)
  match gst_gzdec_process_data fuel buf ret0 (el_world el) with
  | None => None
  | Some None => Some None
  | Some (Some pd) =>
    let outbuf := {| ob_data := pd_decodedmsg pd; ob_bytes := pd_outbuf pd;
                     ob_size := pd_decodedmsglen pd |} in
    (* return gst_pad_push (filter->srcpad, outbuf); *)
    Some (Some (gst_pad_push outbuf,
                {| el_world := pd_world pd;
                   el_pushed := el_pushed el ++ [outbuf] |}))
  end.

End Element.

Arguments element zs : clear implicits.

(** ** A concrete decompressor

    A byte-oriented format small enough to run: a stream is a sequence of
    items, [x01 b] for the literal byte [b], closed by the end marker
    [x00].  The tag [x02] asks for a preset dictionary, any other tag is
    corrupt data.  The decompressor is incremental in the way zlib's is:
    it stops when the input is used up or the output space is full, and
    keeps its position in [mode]. *)
Module Toy.

Inductive mode : Type :=
| Tag      (* at an item boundary *)
| Lit      (* after [x01], before its byte *)
| Done     (* after the end marker *)
| Bad      (* after corrupt data *)
| Closed.  (* after [inflateEnd] *)

Definition compress (x : list byte) : list byte :=
  concat (map (fun b => [x01; b]) x) ++ [x00].

Definition bump (r : inflate_result mode) : inflate_result mode :=
  InflateResult (ir_ret r) (S (ir_consumed r)) (ir_out r) (ir_state r).

Definition emit (b : byte) (r : inflate_result mode) : inflate_result mode :=
  InflateResult (ir_ret r) (S (ir_consumed r)) (b :: ir_out r) (ir_state r).

Fixpoint run (m : mode) (inp : list byte) (room : nat)
  : inflate_result mode :=
  match m with
  | Done => InflateResult Z_STREAM_END 0 [] Done
  | Bad => InflateResult Z_DATA_ERROR 0 [] Bad
  | Closed => InflateResult Z_STREAM_ERROR 0 [] Closed
  | Tag =>
    match inp with
    | [] => InflateResult Z_OK 0 [] Tag
    | x00 :: _ => InflateResult Z_STREAM_END 1 [] Done
    | x01 :: inp' => bump (run Lit inp' room)
    | x02 :: _ => InflateResult Z_NEED_DICT 1 [] Tag
    | _ :: _ => InflateResult Z_DATA_ERROR 1 [] Bad
    end
  | Lit =>
    match inp, room with
    | [], _ => InflateResult Z_OK 0 [] Lit
    | _ :: _, O => InflateResult Z_OK 0 [] Lit
    | b :: inp', S room' => emit b (run Tag inp' room')
    end
  end.

(** As zlib does, report [Z_BUF_ERROR] when a call made no progress. *)
Definition toy_inflate (m : mode) (inp : list byte) (room : Z)
  : inflate_result mode :=
  let r := run m inp (Z.to_nat room) in
  if (ir_ret r =? Z_OK) && Nat.eqb (ir_consumed r) 0
     && Nat.eqb (length (ir_out r)) 0
  then InflateResult Z_BUF_ERROR 0 [] (ir_state r)
  else r.

#[export] Instance toy_inflater : Inflater mode := {|
  inflateInit2 := fun _ => (Z_OK, Tag);
  inflate := toy_inflate;
  inflateEnd := fun _ => Closed
|}.

Definition heap0 : heap := {| brk := 0; live := ∅ |}.

(** The world after [init_decoder] on an empty heap. *)
Definition world0 : world mode := snd (init_decoder heap0).

End Toy.

(** ** What the statements are about *)

(** The bytes a node holds: the first [len] bytes of its block. *)
Definition contents (nd : ll_buffer) : list byte :=
  take (Z.to_nat (len nd)) (dbytes nd).

(** The bytes of a chain, in order. *)
Definition flatten (nodes : list ll_buffer) : list byte :=
  concat (map contents nodes).

(** The sum of the [len] fields of a chain. *)
Definition sum_len (nodes : list ll_buffer) : Z :=
  foldr (fun nd acc => len nd + acc) 0 nodes.

(** The size of the blocks a chain holds, in bytes. *)
Definition block_bytes (nodes : list ll_buffer) : Z :=
  foldr (fun nd acc => Z.of_nat (length (dbytes nd)) + acc) 0 nodes.

(** The bytes the buffers pushed hold, in order. *)
Definition pushed_bytes (bufs : list out_buffer) : list byte :=
  concat (map ob_bytes bufs).

(** A node whose [len] bytes lie inside its block. *)
Definition node_ok (nd : ll_buffer) : Prop :=
  0 <= len nd <= Z.of_nat (length (dbytes nd)).

(** The bytes the [inflate] calls of a log stored, in order. *)
Definition produced {zs : Type} (lg : list (inflate_result zs)) : list byte :=
  concat (map ir_out lg).

(** The return codes of a log, in order. *)
Definition codes {zs : Type} (lg : list (inflate_result zs)) : list Z :=
  map ir_ret lg.

(** The blocks a pointer names. *)
Definition ptr_set (p : ptr) : gset nat :=
  match p with None => ∅ | Some b => {[ b ]} end.

(** The blocks a chain holds: each node and the block its [data] names. *)
Definition owned (nodes : list ll_buffer) : gset nat :=
  foldr (fun nd acc => ptr_set (addr nd) ∪ ptr_set (data nd) ∪ acc) ∅ nodes.

(** The heap after the final loop has walked a chain. *)
Definition free_nodes (nodes : list ll_buffer) (h : heap) : heap :=
  foldl (fun h nd => g_free (addr nd) (g_free (data nd) h)) h nodes.

(** A heap in which only names below [brk] are in use. *)
Definition heap_wf (h : heap) : Prop :=
  forall b, b ∈ live h -> (b < brk h)%nat.

(** The fragments drained for one input slice: fragments of exactly
    [CHUNK] bytes, then one of fewer than [CHUNK] bytes. *)
Inductive drained : list ll_buffer -> Prop :=
| drained_last nd : 0 <= len nd < CHUNK -> drained [nd]
| drained_full nd l : len nd = CHUNK -> drained l -> drained (nd :: l).

(** The fragments of [k] slices, one slice after the other. *)
Definition sliced_by (k : nat) (nodes : list ll_buffer) : Prop :=
  exists groups,
    nodes = concat groups /\ length groups = k /\ Forall drained groups.

(** Whether every fragment but the last holds exactly [CHUNK] bytes. *)
Fixpoint all_but_last_full (nodes : list ll_buffer) : bool :=
  match nodes with
  | [] => true
  | nd :: next =>
    match next with
    | [] => true
    | _ :: _ => (len nd =? CHUNK) && all_but_last_full next
    end
  end.

(** Whether a loop was left normally. *)
Definition left_normally {A : Type} (o : option (flow A)) : bool :=
  match o with Some (Go _) => true | _ => false end.

(** [agree inp c]: the bytes offered to the decompressor are the bytes
    the stream [c] continues with, as far as both go. *)
Fixpoint agree (inp c : list byte) : Prop :=
  match inp, c with
  | a :: inp', b :: c' => a = b /\ agree inp' c'
  | _, _ => True
  end.

Section Contracts.

Context {zs : Type} `{Inflater zs}.

(** The decompressor decodes the format [compress] writes.
    [expects s c x] says that in state [s] the compressed bytes [c] are
    still to be read and the bytes [x] still to be stored.  This is
    zlib's documented behaviour on a well-formed stream:
    - a call consumes a prefix of the input and stores the next bytes of
      the data, never more than [avail_out];
    - it reports no error;
    - [Z_STREAM_END] means the whole stream was read and stored;
    - a call that leaves output space used all the input it was given
      and, when that reached the end of the stream, reports
      [Z_STREAM_END]. *)
Class Decodes (compress : list byte -> list byte)
    (expects : zs -> list byte -> list byte -> Prop) : Prop := {
  compress_nonempty : forall x, compress x <> [];
  init_expects :
    exists s, inflateInit2 (16 + MAX_WBITS) = (Z_OK, s)
              /\ forall x, expects s (compress x) x;
  inflate_expects : forall s c x inp room,
    expects s c x -> 0 < room -> agree inp c ->
    let r := inflate s inp room in
    let k := ir_consumed r in
    let n := length (ir_out r) in
    (k <= length inp)%nat /\ (k <= length c)%nat
    /\ Z.of_nat n <= room
    /\ ir_out r = take n x
    /\ expects (ir_state r) (drop k c) (drop n x)
    /\ fatal (ir_ret r) = false
    /\ (ir_ret r = Z_STREAM_END -> k = length c /\ n = length x)
    /\ (Z.of_nat n < room ->
        k = Nat.min (length inp) (length c)
        /\ ((length c <= length inp)%nat -> ir_ret r = Z_STREAM_END))
}.

(** The decompressor keeps to its output buffer, and cannot fill it for
    ever from the same input: it never stores more than [avail_out]
    bytes, and some measure of its state and unread input goes down with
    every call that fills the buffer. *)
Class Productive (potential : zs -> list byte -> nat) : Prop := {
  inflate_bounded : forall s inp room,
    0 <= room -> Z.of_nat (length (ir_out (inflate s inp room))) <= room;
  inflate_potential : forall s inp room,
    0 < room ->
    let r := inflate s inp room in
    Z.of_nat (length (ir_out r)) = room ->
    (potential (ir_state r) (drop (ir_consumed r) inp) < potential s inp)%nat
}.

(** The state at the head of either loop: [outdata] is a node as
    [g_malloc0] returned it. *)
Definition at_head (st : dstate zs) : Prop :=
  outdata st = zeroed_node (addr (outdata st)).

(** The return code [decode_message] gives for a fatal [inflate] code. *)
Definition fatal_code (c : Z) : Z :=
  if c =? Z_NEED_DICT then Z_DATA_ERROR else c.

(** The [inflate] call a pass of the inner loop makes. *)
Definition call_of (st : dstate zs) : inflate_result zs :=
  inflate (state (stream (wd st))) (next_in (stream (wd st))) CHUNK.

(** What holds of the log at every point of the loops: [ret] is the code
    of the latest call, or still its initial value, and no call so far
    returned a fatal code. *)
Definition log_inv (ret0 : Z) (st : dstate zs) : Prop :=
  ret st = default ret0 (last (codes (log st)))
  /\ Forall (fun r => fatal (ir_ret r) = false) (log st).

(** What holds when the call is left at line 304. *)
Definition fatal_exit (c : Z) (st : dstate zs) : Prop :=
  exists lg r,
    log st = lg ++ [r]
    /\ Forall (fun r => fatal (ir_ret r) = false) lg
    /\ fatal (ir_ret r) = true
    /\ c = fatal_code (ir_ret r)
    /\ ret st = c
    /\ state (stream (wd st)) = inflateEnd (ir_state r).

(** What holds of the chain at every point of the loops: it holds the
    bytes the calls stored, every node's bytes lie in its block, and
    [*outlen] has grown by the sum of the [len] fields. *)
Definition data_inv (outlen0 : Z) (st : dstate zs) : Prop :=
  flatten (chain st ++ [outdata st]) = produced (log st)
  /\ Forall node_ok (chain st ++ [outdata st])
  /\ outlen st
     = (outlen0 + sum_len (chain st ++ [outdata st])) mod gulong_max.

(** What holds of the chain inside the inner loop, [closed] being the
    chain when the loop was entered: the nodes added since are full. *)
Definition drain_inv (closed : list ll_buffer) (st : dstate zs) : Prop :=
  exists fulls,
    chain st = closed ++ fulls /\ Forall (fun nd => len nd = CHUNK) fulls.

(** The same after a pass, with what the pass left in [outdata]. *)
Definition drain_post (closed : list ll_buffer) (st : dstate zs) : Prop :=
  drain_inv closed st
  /\ 0 <= len (outdata st) <= CHUNK
  /\ len (outdata st) = CHUNK - avail_out (stream (wd st)).

(** What holds of the heap at every point of the loops, [h0] being the
    heap on entry: the blocks in use are those of [h0] and those the
    chain holds, the head node among them, all allocated since entry. *)
Definition heap_inv (h0 : heap) (st : dstate zs) : Prop :=
  live (hp (wd st)) = live h0 ∪ owned (chain st ++ [outdata st])
  /\ (forall b, b ∈ owned (chain st ++ [outdata st]) ->
        (brk h0 <= b < brk (hp (wd st)))%nat)
  /\ brk h0 ∈ owned (chain st ++ [outdata st]).

(** What holds of the chain at every point of the loops, [k] being the
    number of slices taken from the input so far.  The chain starts
    with the fragments of the slices that have been drained.  Between
    two slices that is all of it, and [outdata] is an empty node;
    while slice [k] is drained, fragments of exactly [CHUNK] bytes
    follow, and [outdata] is the fragment being filled. *)
Definition fragments_ok (k : nat) (st : dstate zs) : Prop :=
  exists done fulls,
    chain st = done ++ fulls
    /\ Forall (fun nd => len nd = CHUNK) fulls
    /\ 0 <= len (outdata st) <= CHUNK
    /\ ((sliced_by k done /\ fulls = [] /\ len (outdata st) = 0)
        \/ (exists j, k = S j /\ sliced_by j done)).

(** What holds of the blocks after a pass: one block of [CHUNK] bytes
    and one node for every call made. *)
Definition blocks_inv (st : dstate zs) : Prop :=
  block_bytes (chain st ++ [outdata st]) = CHUNK * Z.of_nat (length (log st))
  /\ length (chain st ++ [outdata st]) = length (log st).

(** The same at the head of a loop, where a fresh node waits. *)
Definition blocks_head (st : dstate zs) : Prop :=
  at_head st
  /\ block_bytes (chain st) = CHUNK * Z.of_nat (length (log st))
  /\ length (chain st) = length (log st).

End Contracts.

Module ToySpec.
Import Toy.

(** Where the toy decompressor stands in a stream. *)
Definition expects (m : mode) (c x : list byte) : Prop :=
  match m with
  | Tag => c = compress x
  | Lit => exists b x', x = b :: x' /\ c = b :: compress x'
  | Done => c = [] /\ x = []
  | Bad | Closed => False
  end.

(** Every stored byte costs at least one byte of input. *)
Definition potential (m : mode) (inp : list byte) : nat := length inp.

End ToySpec.

(** ** Arithmetic and memory *)

Lemma CHUNK_val : CHUNK = 262144.
Proof. reflexivity. Qed.

Lemma CHUNK_pos : 0 < CHUNK.
Proof. reflexivity. Qed.

Lemma CHUNK_lt_gulong_max : CHUNK < gulong_max.
Proof. reflexivity. Qed.

Lemma CHUNK_nat : Z.of_nat (Z.to_nat CHUNK) = CHUNK.
Proof. apply Z2Nat.id. discriminate. Qed.

Lemma CHUNK_nat_pos : (0 < Z.to_nat CHUNK)%nat.
Proof. pose proof CHUNK_nat. pose proof CHUNK_pos. lia. Qed.

Global Opaque CHUNK.

Lemma gulong_max_pos : 0 < gulong_max.
Proof. reflexivity. Qed.

Lemma gulong_add_range a b : 0 <= gulong_add a b < gulong_max.
Proof. apply Z.mod_pos_bound, gulong_max_pos. Qed.

Lemma gulong_add_small a b :
  0 <= a + b < gulong_max -> gulong_add a b = a + b.
Proof. intros Hab. unfold gulong_add. now apply Z.mod_small. Qed.

Lemma gulong_add_mod a b :
  gulong_add (a mod gulong_max) b = (a + b) mod gulong_max.
Proof. unfold gulong_add. now rewrite Zplus_mod_idemp_l. Qed.

Lemma gint_of_gsize_small n :
  0 <= n < gint_max -> gint_of_gsize n = n.
Proof.
  intros Hn. unfold gint_of_gsize, gint_max in *. cbv zeta.
  rewrite Z.mod_small by lia.
  destruct (Z.ltb_spec n (2 ^ 31)); [reflexivity | lia].
Qed.

Lemma g_malloc0_nonzero n h :
  n <> 0 ->
  g_malloc0 n h
  = (Some (brk h), {| brk := S (brk h); live := {[ brk h ]} ∪ live h |}).
Proof.
  intros Hn. unfold g_malloc0. destruct (Z.eqb_spec n 0); [contradiction | reflexivity].
Qed.

Lemma g_malloc0_CHUNK h :
  g_malloc0 CHUNK h
  = (Some (brk h), {| brk := S (brk h); live := {[ brk h ]} ∪ live h |}).
Proof. apply g_malloc0_nonzero. pose proof CHUNK_pos. lia. Qed.

Lemma g_malloc0_node h :
  g_malloc0 sizeof_ll_buffer h
  = (Some (brk h), {| brk := S (brk h); live := {[ brk h ]} ∪ live h |}).
Proof. reflexivity. Qed.

Lemma memcpy_Some dst off src n b :
  memcpy dst off src n = Some b <->
  (0 <= off /\ 0 <= n /\ off + n <= Z.of_nat (length dst)
   /\ n <= Z.of_nat (length src))
  /\ b = take (Z.to_nat off) dst ++ take (Z.to_nat n) src
           ++ drop (Z.to_nat (off + n)) dst.
Proof.
  unfold memcpy.
  destruct (Z.leb_spec 0 off), (Z.leb_spec 0 n),
    (Z.leb_spec (off + n) (Z.of_nat (length dst))),
    (Z.leb_spec n (Z.of_nat (length src))); simpl;
    (split; [intros [= <-] || discriminate | intros [? ->]]);
    try (split; [lia | reflexivity]); try reflexivity; lia.
Qed.

Lemma memcpy_length dst off src n b :
  memcpy dst off src n = Some b -> length b = length dst.
Proof.
  intros [Hr ->]%memcpy_Some.
  rewrite !length_app, !length_take, length_drop. lia.
Qed.

(** Copying into a zero-filled block from its start. *)
Lemma memcpy_fresh (m : nat) (out : list byte) :
  (length out <= m)%nat ->
  memcpy (replicate m x00) 0 out (Z.of_nat (length out))
  = Some (out ++ replicate (m - length out) x00).
Proof.
  intros Hle. apply memcpy_Some. rewrite length_replicate. split; [lia |].
  rewrite Z.add_0_l, Nat2Z.id. change (Z.to_nat 0) with 0%nat.
  rewrite take_0, take_ge by lia. now rewrite drop_replicate.
Qed.

Lemma contents_zeroed p : contents (zeroed_node p) = [].
Proof. reflexivity. Qed.

Lemma node_ok_zeroed p : node_ok (zeroed_node p).
Proof. unfold node_ok. simpl. lia. Qed.

Lemma flatten_app l1 l2 : flatten (l1 ++ l2) = flatten l1 ++ flatten l2.
Proof. unfold flatten. now rewrite map_app, concat_app. Qed.

Lemma flatten_snoc l nd : flatten (l ++ [nd]) = flatten l ++ contents nd.
Proof. rewrite flatten_app. unfold flatten. simpl. now rewrite app_nil_r. Qed.

Lemma sum_len_app l1 l2 : sum_len (l1 ++ l2) = sum_len l1 + sum_len l2.
Proof.
  unfold sum_len. induction l1 as [|nd l1 IH]; simpl; [reflexivity |].
  rewrite IH. lia.
Qed.

Lemma sum_len_snoc l nd : sum_len (l ++ [nd]) = sum_len l + len nd.
Proof. rewrite sum_len_app. unfold sum_len. simpl. lia. Qed.

Lemma contents_length nd :
  node_ok nd -> Z.of_nat (length (contents nd)) = len nd.
Proof. unfold node_ok, contents. intros Hok. rewrite length_take. lia. Qed.

Lemma flatten_length nodes :
  Forall node_ok nodes -> Z.of_nat (length (flatten nodes)) = sum_len nodes.
Proof.
  induction 1 as [|nd l Hnd Hl IH]; [reflexivity |].
  change (flatten (nd :: l)) with (contents nd ++ flatten l).
  change (sum_len (nd :: l)) with (len nd + sum_len l).
  rewrite length_app, Nat2Z.inj_add, IH, contents_length by assumption.
  reflexivity.
Qed.

Lemma produced_snoc {zs : Type} (lg : list (inflate_result zs)) r :
  produced (lg ++ [r]) = produced lg ++ ir_out r.
Proof. unfold produced. rewrite map_app, concat_app. simpl. now rewrite app_nil_r. Qed.

(** ** One pass of the inner loop *)

Section Steps.

Context {zs : Type} `{Inflater zs}.

Implicit Types (st : dstate zs) (r : inflate_result zs).

(** The three ways a pass can end. *)
Lemma drain_step_cases st :
  let r := call_of st in
  let n := Z.of_nat (length (ir_out r)) in
  let h1 := {| brk := S (brk (hp (wd st)));
               live := {[ brk (hp (wd st)) ]} ∪ live (hp (wd st)) |} in
  let od1 := {| addr := addr (outdata st); data := Some (brk (hp (wd st)));
                dbytes := replicate (Z.to_nat CHUNK) x00;
                len := len (outdata st) |} in
  (fatal (ir_ret r) = true /\
   drain_step st
   = Return (fatal_code (ir_ret r))
       {| wd := {| stream := ZStream (drop (ir_consumed r) (next_in (stream (wd st))))
                               (CHUNK - n) (inflateEnd (ir_state r));
                   hp := h1 |};
          ret := fatal_code (ir_ret r); chain := chain st; outdata := od1;
          outlen := outlen st; log := log st ++ [r] |})
  \/ (fatal (ir_ret r) = false /\
      memcpy (replicate (Z.to_nat CHUNK) x00) (len (outdata st)) (ir_out r) n = None /\
      drain_step st = Undef)
  \/ (fatal (ir_ret r) = false /\
      exists bytes2,
        memcpy (replicate (Z.to_nat CHUNK) x00) (len (outdata st)) (ir_out r) n
        = Some bytes2 /\
        drain_step st
        = Go {| wd := {| stream := ZStream (drop (ir_consumed r) (next_in (stream (wd st))))
                                     (CHUNK - n) (ir_state r);
                         hp := h1 |};
                ret := ir_ret r; chain := chain st;
                outdata := {| addr := addr (outdata st);
                              data := Some (brk (hp (wd st)));
                              dbytes := bytes2;
                              len := gulong_add (len (outdata st)) n |};
                outlen := gulong_add (outlen st) n;
                log := log st ++ [r] |}).
Proof.
  intros r n h1 od1. unfold drain_step. rewrite g_malloc0_CHUNK.
  fold (call_of st). fold r. cbn [avail_out next_in state].
  replace (CHUNK - (CHUNK - Z.of_nat (length (ir_out r)))) with n by (unfold n; lia).
  cbn [dbytes len addr data].
  destruct (fatal (ir_ret r)) eqn:Hf.
  - left. split; [reflexivity |]. reflexivity.
  - right. destruct (memcpy _ _ _ _) as [bytes2|] eqn:Hm.
    + right. split; [reflexivity |]. exists bytes2. split; reflexivity.
    + left. repeat split; reflexivity.
Qed.

(** A pass that ends normally, whatever the node it started with. *)
Lemma drain_step_Go st st2 :
  drain_step st = Go st2 ->
  let r := call_of st in
  fatal (ir_ret r) = false
  /\ stream (wd st2)
     = ZStream (drop (ir_consumed r) (next_in (stream (wd st))))
         (CHUNK - Z.of_nat (length (ir_out r))) (ir_state r)
  /\ ret st2 = ir_ret r
  /\ chain st2 = chain st
  /\ log st2 = log st ++ [r]
  /\ outlen st2 = gulong_add (outlen st) (Z.of_nat (length (ir_out r)))
  /\ addr (outdata st2) = addr (outdata st).
Proof.
  intros Hgo r.
  destruct (drain_step_cases st) as [[_ Hs] | [(_ & _ & Hs) | (Hf & b & _ & Hs)]];
    rewrite Hs in Hgo; try discriminate.
  injection Hgo as <-. repeat split; try reflexivity. exact Hf.
Qed.

(** A pass from the head of a loop: the fresh node receives exactly the
    bytes [inflate] stored. *)
Lemma drain_step_head st st2 :
  at_head st -> drain_step st = Go st2 ->
  let r := call_of st in
  Z.of_nat (length (ir_out r)) <= CHUNK
  /\ hp (wd st2) = {| brk := S (brk (hp (wd st)));
                      live := {[ brk (hp (wd st)) ]} ∪ live (hp (wd st)) |}
  /\ outdata st2
     = {| addr := addr (outdata st); data := Some (brk (hp (wd st)));
          dbytes := ir_out r
                    ++ replicate (Z.to_nat CHUNK - length (ir_out r)) x00;
          len := Z.of_nat (length (ir_out r)) |}
  /\ contents (outdata st2) = ir_out r.
Proof.
  intros Hhead Hgo r.
  destruct (drain_step_cases st) as [[_ Hs] | [(_ & _ & Hs) | (Hf & b & Hm & Hs)]];
    rewrite Hs in Hgo; try discriminate.
  injection Hgo as <-. cbn [hp wd outdata].
  rewrite Hhead in Hm |- *. cbn [len zeroed_node addr] in Hm |- *.
  fold r in Hm |- *.
  assert (Hle : Z.of_nat (length (ir_out r)) <= CHUNK).
  { apply memcpy_Some in Hm as [Hr _]. rewrite length_replicate, CHUNK_nat in Hr. lia. }
  rewrite memcpy_fresh in Hm by (pose proof CHUNK_nat; lia).
  injection Hm as <-.
  assert (Hsmall : gulong_add 0 (Z.of_nat (length (ir_out r)))
                   = Z.of_nat (length (ir_out r))).
  { apply gulong_add_small. pose proof CHUNK_lt_gulong_max. lia. }
  rewrite Hsmall. repeat split; try assumption.
  unfold contents. cbn [len dbytes]. rewrite Nat2Z.id. apply take_app_length.
Qed.

(** From the head of a loop a pass has undefined behaviour only when
    [inflate] stored more than [avail_out] bytes. *)
Lemma drain_step_head_defined st :
  at_head st ->
  Z.of_nat (length (ir_out (call_of st))) <= CHUNK ->
  drain_step st <> Undef.
Proof.
  intros Hhead Hle.
  destruct (drain_step_cases st) as [[_ Hs] | [(_ & Hm & _) | (_ & b & _ & Hs)]];
    try (rewrite Hs; discriminate).
  rewrite Hhead in Hm. cbn [len zeroed_node] in Hm.
  rewrite memcpy_fresh in Hm by (pose proof CHUNK_nat; lia). discriminate.
Qed.

Lemma drain_step_Return st c st2 :
  drain_step st = Return c st2 ->
  let r := call_of st in
  fatal (ir_ret r) = true
  /\ c = fatal_code (ir_ret r)
  /\ ret st2 = c
  /\ state (stream (wd st2)) = inflateEnd (ir_state r)
  /\ log st2 = log st ++ [r]
  /\ chain st2 = chain st
  /\ outlen st2 = outlen st
  /\ addr (outdata st2) = addr (outdata st)
  /\ data (outdata st2) = Some (brk (hp (wd st)))
  /\ hp (wd st2) = {| brk := S (brk (hp (wd st)));
                      live := {[ brk (hp (wd st)) ]} ∪ live (hp (wd st)) |}.
Proof.
  intros Hret r.
  destruct (drain_step_cases st) as [[Hf Hs] | [(_ & _ & Hs) | (_ & b & _ & Hs)]];
    rewrite Hs in Hret; try discriminate.
  injection Hret as <- <-. repeat split; try reflexivity. exact Hf.
Qed.

Lemma next_node_eq st :
  next_node st
  = {| wd := {| stream := stream (wd st);
                hp := {| brk := S (brk (hp (wd st)));
                         live := {[ brk (hp (wd st)) ]} ∪ live (hp (wd st)) |} |};
       ret := ret st; chain := chain st ++ [outdata st];
       outdata := zeroed_node (Some (brk (hp (wd st))));
       outlen := outlen st; log := log st |}.
Proof. reflexivity. Qed.

Lemma next_node_at_head st : at_head (next_node st).
Proof. reflexivity. Qed.

Lemma set_input_at_head inb st : at_head st -> at_head (set_input inb st).
Proof. intros Hh. exact Hh. Qed.

Lemma entry_at_head outlen0 ret0 (w : world zs) : at_head (entry outlen0 ret0 w).
Proof. reflexivity. Qed.

Lemma drain_S fuel st :
  drain (S fuel) st
  = match drain_step st with
    | Go st2 =>
      if avail_out (stream (wd st2)) =? 0 then drain fuel (next_node st2)
      else Some (Go st2)
    | Return c st2 => Some (Return c st2)
    | Undef => Some Undef
    end.
Proof. reflexivity. Qed.

Lemma next_slice_eq rest :
  next_slice rest = (take (Z.to_nat CHUNK) rest, drop (Z.to_nat CHUNK) rest).
Proof.
  unfold next_slice. destruct (Z.leb_spec CHUNK (Z.of_nat (length rest))) as [Hle|Hlt];
    [reflexivity |].
  pose proof CHUNK_nat. rewrite take_ge, drop_ge by lia. reflexivity.
Qed.

Lemma feed_S fuel rest st :
  feed (S fuel) rest st
  = let st1 := set_input (take (Z.to_nat CHUNK) rest) st in
    if avail_in (stream (wd st1)) =? 0
    then Some (Go (st1, drop (Z.to_nat CHUNK) rest))
    else
      match drain fuel st1 with
      | None => None
      | Some Undef => Some Undef
      | Some (Return c st2) => Some (Return c (st2, drop (Z.to_nat CHUNK) rest))
      | Some (Go st2) =>
        if ret st2 =? Z_STREAM_END
        then Some (Go (st2, drop (Z.to_nat CHUNK) rest))
        else feed fuel (drop (Z.to_nat CHUNK) rest) (next_node st2)
      end.
Proof. cbn [feed]. rewrite next_slice_eq. reflexivity. Qed.

End Steps.

(** ** Reasoning about the two loops *)

Section Loops.

Context {zs : Type} `{Inflater zs}.

Implicit Types (st : dstate zs) (I P : dstate zs -> Prop)
  (R : Z -> dstate zs -> Prop).

(** More fuel does not change a result. *)
Lemma drain_mono fuel fuel' st o :
  drain fuel st = Some o -> (fuel <= fuel')%nat -> drain fuel' st = Some o.
Proof.
  revert fuel' st. induction fuel as [|fuel IH]; intros fuel' st Hd Hle;
    [discriminate |].
  destruct fuel' as [|fuel']; [lia |].
  rewrite drain_S in Hd |- *.
  destruct (drain_step st) as [st2| |]; try assumption.
  destruct (avail_out (stream (wd st2)) =? 0); [| assumption].
  apply IH; [assumption | lia].
Qed.

Lemma feed_mono fuel fuel' rest st o :
  feed fuel rest st = Some o -> (fuel <= fuel')%nat ->
  feed fuel' rest st = Some o.
Proof.
  revert fuel' rest st. induction fuel as [|fuel IH]; intros fuel' rest st Hf Hle;
    [discriminate |].
  destruct fuel' as [|fuel']; [lia |].
  rewrite feed_S in Hf |- *. cbv zeta in Hf |- *.
  destruct (avail_in _ =? 0); [assumption |].
  destruct (drain fuel _) as [o1|] eqn:Hd; [| discriminate].
  rewrite (drain_mono fuel fuel' _ o1 Hd) by lia.
  destruct o1 as [st2| |]; try assumption.
  destruct (ret st2 =? Z_STREAM_END); [assumption |].
  apply IH; [assumption | lia].
Qed.

Lemma decode_message_mono fuel fuel' src om outlen0 ret0 (w : world zs) o :
  decode_message fuel src om outlen0 ret0 w = Some o -> (fuel <= fuel')%nat ->
  decode_message fuel' src om outlen0 ret0 w = Some o.
Proof.
  unfold decode_message. intros Hd Hle.
  destruct (feed fuel _ _) as [o1|] eqn:Hf; [| discriminate].
  now rewrite (feed_mono fuel fuel' _ _ o1 Hf Hle).
Qed.

(** The inner loop: [I] holds at its head, [P] after a pass. *)
Lemma drain_rule I P R :
  (forall st st2, I st -> drain_step st = Go st2 -> P st2) ->
  (forall st2, P st2 -> avail_out (stream (wd st2)) = 0 -> I (next_node st2)) ->
  (forall st c st2, I st -> drain_step st = Return c st2 -> R c st2) ->
  forall fuel st, I st ->
    match drain fuel st with
    | Some (Go st') => P st' /\ avail_out (stream (wd st')) <> 0
    | Some (Return c st') => R c st'
    | _ => True
    end.
Proof.
  intros Hgo Hnext Hret. induction fuel as [|fuel IH]; intros st HI; [exact Logic.I |].
  rewrite drain_S. destruct (drain_step st) as [st2|c st2|] eqn:Hs.
  - destruct (Z.eqb_spec (avail_out (stream (wd st2))) 0) as [Hz|Hnz].
    + apply IH. apply Hnext; [| assumption]. eapply Hgo; eassumption.
    + split; [| assumption]. eapply Hgo; eassumption.
  - eapply Hret; eassumption.
  - exact Logic.I.
Qed.

(** The outer loop, from what the inner loop guarantees.  The loop is
    left either at the [break], with no input in the stream, or after a
    drain that ended with [Z_STREAM_END]. *)
Lemma feed_rule I P R :
  (forall st inb, I st -> I (set_input inb st)) ->
  (forall fuel st, I st ->
     match drain fuel st with
     | Some (Go st') => P st'
     | Some (Return c st') => R c st'
     | _ => True
     end) ->
  (forall st2, P st2 -> ret st2 <> Z_STREAM_END -> I (next_node st2)) ->
  forall fuel rest st, I st ->
    match feed fuel rest st with
    | Some (Go (st', _)) =>
      (I st' /\ next_in (stream (wd st')) = [])
      \/ (P st' /\ ret st' = Z_STREAM_END)
    | Some (Return c (st', _)) => R c st'
    | _ => True
    end.
Proof.
  intros Hin Hdrain Hnext. induction fuel as [|fuel IH]; intros rest st HI;
    [exact Logic.I |].
  rewrite feed_S. cbv zeta.
  pose proof (Hin st (take (Z.to_nat CHUNK) rest) HI) as HI1.
  destruct (Z.eqb_spec (avail_in (stream (wd (set_input (take (Z.to_nat CHUNK) rest) st)))) 0)
    as [Hz|Hnz].
  - left. split; [assumption |].
    unfold avail_in in Hz. apply length_zero_iff_nil. lia.
  - specialize (Hdrain fuel _ HI1).
    destruct (drain fuel _) as [[st2|c st2|]|]; try exact Logic.I; try assumption.
    destruct (Z.eqb_spec (ret st2) Z_STREAM_END) as [He|Hne].
    + right. split; assumption.
    + apply IH. apply Hnext; assumption.
Qed.

(** Both loops at once, for an invariant that does not tell them apart. *)
Lemma loops_rule I P R :
  (forall st inb, I st -> I (set_input inb st)) ->
  (forall st st2, I st -> drain_step st = Go st2 -> P st2) ->
  (forall st2, P st2 -> I (next_node st2)) ->
  (forall st c st2, I st -> drain_step st = Return c st2 -> R c st2) ->
  forall fuel rest st, I st ->
    match feed fuel rest st with
    | Some (Go (st', _)) =>
      (I st' /\ next_in (stream (wd st')) = [])
      \/ (P st' /\ ret st' = Z_STREAM_END)
    | Some (Return c (st', _)) => R c st'
    | _ => True
    end.
Proof.
  intros Hin Hgo Hnext Hret. apply feed_rule with (P := P); try assumption.
  - intros fuel st HI.
    pose proof (drain_rule I P R Hgo (fun st2 HP _ => Hnext st2 HP) Hret fuel st HI) as Hd.
    destruct (drain fuel st) as [[st'|c st'|]|]; try exact Logic.I; try assumption.
    apply Hd.
  - intros st2 HP _. apply Hnext, HP.
Qed.

End Loops.

(** ** The log of the calls *)

Section LogFacts.

Context {zs : Type} `{Inflater zs}.

Implicit Types (st : dstate zs).

Lemma log_inv_snoc ret0 (lg : list (inflate_result zs)) r :
  default ret0 (last (codes (lg ++ [r]))) = ir_ret r.
Proof. unfold codes. rewrite map_app. simpl. now rewrite last_snoc. Qed.

Lemma log_invariant ret0 fuel rest st :
  log_inv ret0 st ->
  match feed fuel rest st with
  | Some (Go (st', _)) => log_inv ret0 st'
  | Some (Return c (st', _)) => fatal_exit c st'
  | _ => True
  end.
Proof.
  intros HI.
  pose proof (loops_rule (log_inv ret0) (log_inv ret0) fatal_exit) as Hrule.
  specialize (Hrule (fun st inb HI => HI)).
  assert (Hgo : forall st st2, log_inv ret0 st -> drain_step st = Go st2 ->
                               log_inv ret0 st2).
  { intros s1 s2 [_ Hall] (Hf & _ & Hr & _ & Hl & _)%drain_step_Go.
    split.
    - rewrite Hl, log_inv_snoc. exact Hr.
    - rewrite Hl. apply Forall_app. split; [assumption |].
      constructor; [exact Hf | constructor]. }
  assert (Hret : forall st c st2, log_inv ret0 st -> drain_step st = Return c st2 ->
                                  fatal_exit c st2).
  { intros s1 c s2 [_ Hall] (Hf & Hc & Hr & Hs & Hl & _)%drain_step_Return.
    exists (log s1), (call_of s1). repeat split; assumption. }
  specialize (Hrule Hgo (fun st2 HP => HP) Hret fuel rest st HI).
  destruct (feed fuel rest st) as [[[st' rest']|c [st' rest']|]|];
    try exact Logic.I; try assumption.
  destruct Hrule as [[? _]|[? _]]; assumption.
Qed.

Lemma entry_log_inv outlen0 ret0 (w : world zs) :
  log_inv ret0 (entry outlen0 ret0 w).
Proof. split; [reflexivity | constructor]. Qed.

End LogFacts.

(** ** The chain and the result buffer *)

Section DataFacts.

Context {zs : Type} `{Inflater zs}.

Implicit Types (st : dstate zs).

Lemma entry_data_inv outlen0 ret0 (w : world zs) :
  0 <= outlen0 < gulong_max -> data_inv outlen0 (entry outlen0 ret0 w).
Proof.
  intros Hr. unfold data_inv. cbn. repeat split.
  - constructor; [apply node_ok_zeroed | constructor].
  - rewrite Z.add_0_r. symmetry. now apply Z.mod_small.
Qed.

Lemma data_inv_step outlen0 st st2 :
  at_head st -> data_inv outlen0 st -> drain_step st = Go st2 ->
  data_inv outlen0 st2.
Proof.
  intros Hhead (Hfl & Hok & Hlen) Hgo.
  pose proof (drain_step_Go _ _ Hgo) as (_ & _ & _ & Hch & Hl & Hol & _).
  pose proof (drain_step_head _ _ Hhead Hgo) as (Hle & _ & Hod & Hct).
  rewrite Hhead in Hfl, Hok, Hlen.
  rewrite flatten_snoc, contents_zeroed, app_nil_r in Hfl.
  rewrite sum_len_snoc in Hlen. cbn [len zeroed_node] in Hlen.
  rewrite Z.add_0_r in Hlen.
  apply Forall_app in Hok as [Hok _].
  unfold data_inv. rewrite Hch, Hl. repeat split.
  - rewrite flatten_snoc, produced_snoc, Hct, Hfl. reflexivity.
  - apply Forall_app. split; [assumption |]. constructor; [| constructor].
    rewrite Hod. unfold node_ok. cbn [len dbytes]. rewrite length_app. lia.
  - rewrite Hol, Hlen, gulong_add_mod, sum_len_snoc. rewrite Hod. cbn [len].
    f_equal. lia.
Qed.

Lemma data_inv_next outlen0 st : data_inv outlen0 st -> data_inv outlen0 (next_node st).
Proof.
  intros (Hfl & Hok & Hlen). rewrite next_node_eq. unfold data_inv.
  cbn [chain outdata log outlen]. repeat split.
  - rewrite flatten_snoc, contents_zeroed, app_nil_r. exact Hfl.
  - apply Forall_app. split; [assumption |].
    constructor; [apply node_ok_zeroed | constructor].
  - rewrite sum_len_snoc. cbn [len zeroed_node]. rewrite Z.add_0_r. exact Hlen.
Qed.

(** The chain invariant holds wherever the outer loop is left normally. *)
Lemma data_invariant outlen0 fuel rest st st' rest' :
  at_head st -> data_inv outlen0 st ->
  feed fuel rest st = Some (Go (st', rest')) -> data_inv outlen0 st'.
Proof.
  intros Hhead HI Hfeed.
  pose proof (loops_rule (fun st => at_head st /\ data_inv outlen0 st)
                (data_inv outlen0) (fun _ _ => True)) as Hrule.
  specialize (Hrule (fun st inb HI => HI)).
  specialize (Hrule (fun st st2 HI Hgo => data_inv_step _ _ _ (proj1 HI) (proj2 HI) Hgo)).
  specialize (Hrule (fun st2 HP => conj (next_node_at_head st2) (data_inv_next _ _ HP))).
  specialize (Hrule (fun _ _ _ _ _ => Logic.I) fuel rest st (conj Hhead HI)).
  rewrite Hfeed in Hrule. destruct Hrule as [[[_ ?] _]|[? _]]; assumption.
Qed.

(** The final loop on a buffer split at [outmsgidx]. *)
Lemma copy_out_spec nodes pre post h b h' :
  Z.of_nat (length (pre ++ post)) < gulong_max ->
  copy_out nodes (pre ++ post) (Z.of_nat (length pre)) h = Some (b, h') ->
  exists mid post',
    post = mid ++ post' /\ length mid = length (flatten nodes)
    /\ b = pre ++ flatten nodes ++ post'
    /\ h' = free_nodes nodes h
    /\ Forall node_ok nodes.
Proof.
  revert pre post h. induction nodes as [|nd next IH]; intros pre post h Hlt Hc.
  - injection Hc as <- <-. exists [], post. repeat split. constructor.
  - cbn [copy_out] in Hc.
    destruct (memcpy _ _ _ _) as [buf1|] eqn:Hm; [| discriminate].
    apply memcpy_Some in Hm as [(_ & Hn & Hfit & Hsrc) ->].
    rewrite length_app in Hfit, Hlt.
    rewrite Nat2Z.id, take_app_length in Hc.
    replace (Z.to_nat (Z.of_nat (length pre) + len nd))
      with (length pre + Z.to_nat (len nd))%nat in Hc by lia.
    rewrite drop_app_ge, Nat.add_comm, Nat.add_sub in Hc by lia.
    fold (contents nd) in Hc.
    assert (Hcl : length (contents nd) = Z.to_nat (len nd)).
    { unfold contents. rewrite length_take. lia. }
    rewrite gulong_add_small in Hc by lia.
    replace (Z.of_nat (length pre) + len nd)
      with (Z.of_nat (length (pre ++ contents nd))) in Hc
      by (rewrite length_app; lia).
    rewrite app_assoc in Hc.
    apply IH in Hc as (mid & post' & Hpost & Hmid & -> & -> & Hok).
    2:{ rewrite !length_app, length_drop. lia. }
    exists (take (Z.to_nat (len nd)) post ++ mid), post'. repeat split.
    + rewrite <- app_assoc, <- Hpost. now rewrite take_drop.
    + change (flatten (nd :: next)) with (contents nd ++ flatten next).
      rewrite !length_app, length_take, Hcl, Hmid. lia.
    + change (flatten (nd :: next)) with (contents nd ++ flatten next).
      now rewrite <- !app_assoc.
    + constructor; [| assumption]. unfold node_ok. lia.
Qed.

Lemma copy_out_defined nodes pre post h :
  Forall node_ok nodes ->
  Z.of_nat (length (pre ++ post)) < gulong_max ->
  (length (flatten nodes) <= length post)%nat ->
  exists b h', copy_out nodes (pre ++ post) (Z.of_nat (length pre)) h = Some (b, h').
Proof.
  intros Hok. revert pre post h.
  induction Hok as [|nd next Hnd Hnext IH]; intros pre post h Hlt Hfit.
  - eexists _, _. reflexivity.
  - change (flatten (nd :: next)) with (contents nd ++ flatten next) in Hfit.
    pose proof (contents_length nd Hnd) as Hcl.
    rewrite length_app in Hfit, Hlt. unfold node_ok in Hnd.
    cbn [copy_out].
    destruct (memcpy _ _ _ _) as [buf1|] eqn:Hm.
    + apply memcpy_Some in Hm as [_ ->].
      rewrite Nat2Z.id, take_app_length.
      replace (Z.to_nat (Z.of_nat (length pre) + len nd))
        with (length pre + Z.to_nat (len nd))%nat by lia.
      rewrite drop_app_ge, Nat.add_comm, Nat.add_sub by lia.
      fold (contents nd).
      rewrite gulong_add_small by lia.
      replace (Z.of_nat (length pre) + len nd)
        with (Z.of_nat (length (pre ++ contents nd)))
        by (rewrite length_app; lia).
      rewrite app_assoc. apply IH.
      * rewrite !length_app, length_drop. lia.
      * rewrite length_drop. lia.
    + exfalso.
      assert (Hs : is_Some (memcpy (pre ++ post) (Z.of_nat (length pre)) (dbytes nd) (len nd))).
      { eexists. apply memcpy_Some. split; [| reflexivity].
        rewrite length_app. lia. }
      rewrite Hm in Hs. destruct Hs as [? [=]].
Qed.

End DataFacts.

(** ** The return through the final copy *)

Section FinishFacts.

Context {zs : Type} `{Inflater zs}.

Implicit Types (st : dstate zs).

Lemma wrapped_total outlen0 total :
  0 <= outlen0 < gulong_max -> 0 <= total ->
  total <= (outlen0 + total) mod gulong_max ->
  (outlen0 + total) mod gulong_max = outlen0 + total.
Proof.
  intros Hr Ht Hle.
  pose proof (Z.div_mod (outlen0 + total) gulong_max) as Hdm.
  pose proof (Z.mod_pos_bound (outlen0 + total) gulong_max gulong_max_pos) as Hb.
  change gulong_max with 18446744073709551616 in *.
  lia.
Qed.

(** What a completed final copy returns. *)
Lemma finish_Some outlen0 st r :
  0 <= outlen0 < gulong_max -> data_inv outlen0 st -> finish st = Some r ->
  let nodes := chain st ++ [outdata st] in
  r_outlen r = outlen0 + sum_len nodes
  /\ r_bytes r = flatten nodes ++ replicate (Z.to_nat outlen0) x00
  /\ r_code r = (if ret st =? Z_STREAM_END then Z_OK else Z_DATA_ERROR)
  /\ r_log r = log st
  /\ stream (r_world r) = stream (wd st)
  /\ r_outmsg r = fst (g_malloc0 (outlen st) (hp (wd st)))
  /\ hp (r_world r)
     = free_nodes nodes (snd (g_malloc0 (outlen st) (hp (wd st)))).
Proof.
  intros Hr (Hfl & Hok & Hlen) Hfin nodes. unfold finish in Hfin.
  destruct (g_malloc0 (outlen st) (hp (wd st))) as [m h1].
  fold nodes in Hfin, Hok, Hlen, Hfl.
  destruct (copy_out nodes _ 0 h1) as [[b h2]|] eqn:Hc; [| discriminate].
  injection Hfin as <-. cbn [r_outlen r_bytes r_code r_log r_world stream hp r_outmsg fst snd].
  assert (Hout : 0 <= outlen st < gulong_max).
  { rewrite Hlen. apply Z.mod_pos_bound, gulong_max_pos. }
  apply (copy_out_spec nodes [] (replicate (Z.to_nat (outlen st)) x00)) in Hc
    as (mid & post' & Hpost & Hmid & -> & -> & _).
  2:{ cbn [app]. rewrite length_replicate. lia. }
  pose proof (flatten_length nodes Hok) as Hfl_len.
  assert (Hfit : sum_len nodes <= outlen st).
  { apply (f_equal length) in Hpost.
    rewrite length_replicate, length_app in Hpost. lia. }
  assert (Htot : outlen st = outlen0 + sum_len nodes).
  { rewrite Hlen. apply wrapped_total; [assumption | lia |]. now rewrite <- Hlen. }
  repeat split; try assumption.
  cbn [app]. f_equal.
  apply (f_equal (drop (length mid))) in Hpost.
  rewrite drop_app_length, drop_replicate in Hpost. rewrite <- Hpost.
  f_equal. lia.
Qed.

(** The final copy is defined when the total does not wrap around. *)
Lemma finish_defined outlen0 st :
  0 <= outlen0 -> data_inv outlen0 st ->
  outlen0 + sum_len (chain st ++ [outdata st]) < gulong_max ->
  is_Some (finish st).
Proof.
  intros Hr (Hfl & Hok & Hlen) Hlt. unfold finish.
  destruct (g_malloc0 (outlen st) (hp (wd st))) as [m h1].
  pose proof (flatten_length _ Hok) as Hfl_len.
  assert (Htot : outlen st = outlen0 + sum_len (chain st ++ [outdata st])).
  { rewrite Hlen. apply Z.mod_small. lia. }
  destruct (copy_out_defined (chain st ++ [outdata st]) []
              (replicate (Z.to_nat (outlen st)) x00) h1 Hok) as (b & h2 & Hc).
  - cbn [app]. rewrite length_replicate. lia.
  - rewrite length_replicate. lia.
  - cbn [app length] in Hc. change (Z.of_nat 0) with 0 in Hc. rewrite Hc. eexists. reflexivity.
Qed.

Lemma decode_message_Go fuel src om outlen0 ret0 (w : world zs) st rest :
  feed fuel src (entry outlen0 ret0 w) = Some (Go (st, rest)) ->
  decode_message fuel src om outlen0 ret0 w = Some (finish st).
Proof. intros Hf. unfold decode_message. now rewrite Hf. Qed.

(** A result whose log has no fatal code came through the final copy. *)
Lemma decode_message_finished fuel src om outlen0 ret0 (w : world zs) r :
  decode_message fuel src om outlen0 ret0 w = Some (Some r) ->
  Forall (fun c => fatal (ir_ret c) = false) (r_log r) ->
  exists st rest,
    feed fuel src (entry outlen0 ret0 w) = Some (Go (st, rest))
    /\ finish st = Some r.
Proof.
  unfold decode_message. intros Hd Hnf.
  pose proof (log_invariant ret0 fuel src _ (entry_log_inv outlen0 ret0 w)) as Hlog.
  destruct (feed fuel src _) as [[[st rest]|c [st rest]|]|]; try discriminate.
  - injection Hd as Hd. exists st, rest. split; [reflexivity | assumption].
  - exfalso. injection Hd as <-. cbn [r_log] in Hnf.
    destruct Hlog as (lg & r & Hl & _ & Hf & _).
    rewrite Hl in Hnf. apply Forall_app in Hnf as [_ Hnf].
    apply Forall_cons in Hnf as [Hnf _]. congruence.
Qed.

End FinishFacts.

(** ** Decoding a well-formed stream *)

Lemma agree_nil_r inp : agree inp [].
Proof. destruct inp; exact Logic.I. Qed.

Lemma agree_take n c junk : agree (take n (c ++ junk)) c.
Proof.
  revert n. induction c as [|b c IH]; intros n; [apply agree_nil_r |].
  destruct n as [|n]; [exact Logic.I |]. split; [reflexivity | apply IH].
Qed.

Lemma agree_drop k inp c : agree inp c -> agree (drop k inp) (drop k c).
Proof.
  revert inp c. induction k as [|k IH]; intros inp c Ha; [exact Ha |].
  destruct inp as [|a inp]; [exact Logic.I |].
  destruct c as [|b c]; [apply agree_nil_r |].
  destruct Ha as [_ Ha]. apply IH, Ha.
Qed.

Section DecodeFacts.

Context {zs : Type} `{Inflater zs}.
Context {compress : list byte -> list byte}
        {expects : zs -> list byte -> list byte -> Prop}
        `{!Decodes compress expects}.

Implicit Types (st : dstate zs).

(** Draining one slice of a well-formed stream: the loop ends normally,
    having used the slice as far as the stream goes and stored the next
    [p] bytes of the data. *)
Lemma drain_decodes fuel st c x :
  at_head st ->
  expects (state (stream (wd st))) c x ->
  agree (next_in (stream (wd st))) c ->
  (length x < fuel)%nat ->
  exists st' p,
    drain fuel st = Some (Go st')
    /\ produced (log st') = produced (log st) ++ take p x
    /\ expects (state (stream (wd st')))
         (drop (Nat.min (length (next_in (stream (wd st)))) (length c)) c)
         (drop p x)
    /\ ((length c <= length (next_in (stream (wd st))))%nat ->
        ret st' = Z_STREAM_END /\ (length x <= p)%nat)
    /\ ((length (next_in (stream (wd st))) < length c)%nat ->
        ret st' <> Z_STREAM_END).
Proof.
  revert st c x. induction fuel as [|fuel IH]; intros st c x Hhead Hex Hag Hlt; [lia |].
  rewrite drain_S.
  pose proof (inflate_expects _ c x (next_in (stream (wd st))) CHUNK Hex CHUNK_pos Hag)
    as (Hk1 & Hk2 & Hn & Hout & Hex' & Hnf & Hend & Hroom).
  fold (call_of st) in Hk1, Hk2, Hn, Hout, Hex', Hnf, Hend, Hroom.
  set (inp := next_in (stream (wd st))) in *.
  set (r := call_of st) in *.
  assert (Hnx : (length (ir_out r) <= length x)%nat).
  { rewrite Hout at 1. rewrite length_take. lia. }
  destruct (drain_step st) as [st2|c2 st2|] eqn:Hs.
  - pose proof (drain_step_Go _ _ Hs) as (_ & Hstrm & Hret & _ & Hlog & _).
    fold r in Hstrm, Hret, Hlog. fold inp in Hstrm.
    rewrite Hstrm. cbn [avail_out].
    destruct (Z.eqb_spec (CHUNK - Z.of_nat (length (ir_out r))) 0) as [Hfull|Hroom'].
    + pose proof CHUNK_pos.
      destruct (IH (next_node st2) (drop (ir_consumed r) c) (drop (length (ir_out r)) x))
        as (st' & p' & Hd & Hp & Hex'' & Hge & Hlt').
      * apply next_node_at_head.
      * rewrite next_node_eq. cbn [wd stream]. rewrite Hstrm. exact Hex'.
      * rewrite next_node_eq. cbn [wd stream]. rewrite Hstrm. cbn [next_in].
        apply agree_drop, Hag.
      * rewrite length_drop. lia.
      * rewrite next_node_eq in Hp, Hex'', Hge, Hlt'. cbn [wd stream log] in Hp, Hex'', Hge, Hlt'.
        rewrite Hstrm in Hex'', Hge, Hlt'. cbn [next_in] in Hex'', Hge, Hlt'.
        rewrite !length_drop in Hex'', Hge, Hlt'. rewrite drop_drop in Hex''.
        rewrite drop_drop in Hex''.
        exists st', (length (ir_out r) + p')%nat. split; [exact Hd |]. split.
        { rewrite Hp, Hlog, produced_snoc, <- app_assoc. f_equal.
          rewrite Hout at 1. apply take_take_drop. }
        split.
        { replace (Nat.min (length inp) (length c))
            with (ir_consumed r
                  + Nat.min (length inp - ir_consumed r) (length c - ir_consumed r))%nat
            by lia.
          exact Hex''. }
        split.
        { intros Hci. destruct (Hge ltac:(lia)) as [He Hxp].
          rewrite length_drop in Hxp. split; [exact He | lia]. }
        { intros Hic. apply Hlt'. lia. }
    + destruct (Hroom ltac:(lia)) as [Hk Hfin].
      exists st2, (length (ir_out r)). split; [reflexivity |]. split.
      { rewrite Hlog, produced_snoc. f_equal. exact Hout. }
      split.
      { rewrite Hstrm. cbn [state]. rewrite <- Hk. exact Hex'. }
      split.
      { intros Hci. rewrite Hret. split; [apply Hfin, Hci |].
        destruct (Hend (Hfin Hci)) as [_ Hnx']. lia. }
      { intros Hic Hre. rewrite Hret in Hre. destruct (Hend Hre) as [Hkc _]. lia. }
  - apply drain_step_Return in Hs as (Hf & _). fold r in Hf. congruence.
  - exfalso. apply (drain_step_head_defined st Hhead); [| exact Hs].
    fold r. exact Hn.
Qed.

(** Feeding a well-formed stream followed by anything: the outer loop
    ends after the [m] slices that hold the stream, with the whole data
    stored and [Z_STREAM_END] in [ret]; what follows those slices is
    never copied to [inbuffer]. *)
Lemma feed_decodes fuel c junk x st :
  at_head st ->
  expects (state (stream (wd st))) c x ->
  c <> [] ->
  (length c + length x < fuel)%nat ->
  exists st' m,
    feed fuel (c ++ junk) st
    = Some (Go (st', drop (m * Z.to_nat CHUNK) (c ++ junk)))
    /\ (length c <= m * Z.to_nat CHUNK < length c + Z.to_nat CHUNK)%nat
    /\ ret st' = Z_STREAM_END
    /\ produced (log st') = produced (log st) ++ x.
Proof.
  revert c x st. induction fuel as [|fuel IH]; intros c x st Hhead Hex Hne Hlt; [lia |].
  pose proof CHUNK_nat_pos as HN.
  assert (Hc : (0 < length c)%nat) by (destruct c; [congruence | simpl; lia]).
  rewrite feed_S. cbv zeta.
  set (inb := take (Z.to_nat CHUNK) (c ++ junk)).
  assert (Hinb : length inb = Nat.min (Z.to_nat CHUNK) (length c + length junk)).
  { unfold inb. now rewrite length_take, length_app. }
  replace (avail_in (stream (wd (set_input inb st)))) with (Z.of_nat (length inb))
    by reflexivity.
  destruct (Z.eqb_spec (Z.of_nat (length inb)) 0) as [Hz|_]; [lia |].
  destruct (drain_decodes fuel (set_input inb st) c x)
    as (st2 & p & Hd & Hp & Hex2 & Hge & Hlt2).
  { apply set_input_at_head, Hhead. }
  { exact Hex. }
  { apply agree_take. }
  { lia. }
  cbn [set_input wd stream next_in log] in Hp, Hex2, Hge, Hlt2.
  rewrite Hd.
  destruct (Nat.le_gt_cases (length c) (length inb)) as [Hci|Hic].
  - destruct (Hge Hci) as [He Hxp]. rewrite He, Z.eqb_refl.
    exists st2, 1%nat. rewrite Nat.mul_1_l. split; [reflexivity |].
    split; [lia |]. split; [exact He |].
    rewrite Hp, take_ge by lia. reflexivity.
  - specialize (Hlt2 Hic).
    destruct (Z.eqb_spec (ret st2) Z_STREAM_END) as [|_]; [contradiction |].
    assert (HinbN : length inb = Z.to_nat CHUNK) by lia.
    rewrite drop_app_le by lia.
    destruct (IH (drop (Z.to_nat CHUNK) c) (drop p x) (next_node st2))
      as (st' & m & Hf & Hm & He & Hp').
    { apply next_node_at_head. }
    { rewrite next_node_eq. cbn [wd stream].
      replace (Nat.min (length inb) (length c)) with (Z.to_nat CHUNK) in Hex2 by lia.
      exact Hex2. }
    { intros Hnil. apply (f_equal length) in Hnil. rewrite length_drop in Hnil.
      simpl in Hnil. lia. }
    { rewrite !length_drop. lia. }
    exists st', (S m). rewrite Hf. split.
    { do 3 f_equal. rewrite <- (drop_app_le c junk) by lia.
      rewrite drop_drop. f_equal. }
    rewrite length_drop in Hm. split; [lia |]. split; [exact He |].
    rewrite Hp', next_node_eq. cbn [log]. rewrite Hp, <- app_assoc.
    now rewrite take_drop.
Qed.

(** Decoding a stream from a session at its start. *)
Lemma decode_stream x junk om outlen0 ret0 (w : world zs) fuel :
  expects (state (stream w)) (compress x) x ->
  0 <= outlen0 -> outlen0 + Z.of_nat (length x) < gulong_max ->
  (length (compress x) + length x < fuel)%nat ->
  exists st m r,
    feed fuel (compress x ++ junk) (entry outlen0 ret0 w)
    = Some (Go (st, drop (m * Z.to_nat CHUNK) (compress x ++ junk)))
    /\ (length (compress x) <= m * Z.to_nat CHUNK
        < length (compress x) + Z.to_nat CHUNK)%nat
    /\ ret st = Z_STREAM_END
    /\ decode_message fuel (compress x ++ junk) om outlen0 ret0 w = Some (Some r)
    /\ r_code r = Z_OK
    /\ r_bytes r = x ++ replicate (Z.to_nat outlen0) x00
    /\ r_outlen r = outlen0 + Z.of_nat (length x)
    /\ produced (r_log r) = x.
Proof.
  intros Hex H0 Hlt Hfuel.
  destruct (feed_decodes fuel (compress x) junk x (entry outlen0 ret0 w))
    as (st & m & Hf & Hm & He & Hp); try assumption.
  { apply entry_at_head. }
  { apply compress_nonempty. }
  cbn [entry log produced] in Hp. change (produced (log (entry outlen0 ret0 w))) with (@nil byte) in Hp.
  cbn [app] in Hp.
  assert (Hr : 0 <= outlen0 < gulong_max) by lia.
  pose proof (data_invariant outlen0 fuel _ _ _ _ (entry_at_head _ _ _)
                (entry_data_inv outlen0 ret0 w Hr) Hf) as Hinv.
  pose proof Hinv as (Hfl & Hok & _).
  pose proof (flatten_length _ Hok) as Hsum. rewrite Hfl, Hp in Hsum.
  destruct (finish_defined outlen0 st H0 Hinv) as [r Hfin]; [lia |].
  pose proof (finish_Some outlen0 st r Hr Hinv Hfin) as (Hol & Hb & Hc & Hl & _).
  exists st, m, r. split; [exact Hf |]. split; [exact Hm |]. split; [exact He |].
  split; [rewrite (decode_message_Go _ _ _ _ _ _ _ _ Hf), Hfin; reflexivity |].
  split; [rewrite Hc, He; reflexivity |].
  split; [rewrite Hb, Hfl, Hp; reflexivity |].
  split; [rewrite Hol; lia |].
  rewrite Hl. exact Hp.
Qed.

End DecodeFacts.

(** ** Termination *)

Section Termination.

Context {zs : Type} `{Inflater zs}.
Context {potential : zs -> list byte -> nat} `{!Productive potential}.

Implicit Types (st : dstate zs).

Lemma drain_terminates fuel st :
  (potential (state (stream (wd st))) (next_in (stream (wd st))) < fuel)%nat ->
  is_Some (drain fuel st).
Proof.
  revert st. induction fuel as [|fuel IH]; intros st Hlt; [lia |].
  rewrite drain_S. destruct (drain_step st) as [st2|c st2|] eqn:Hs;
    [| eexists; reflexivity | eexists; reflexivity].
  pose proof (drain_step_Go _ _ Hs) as (_ & Hstrm & _).
  destruct (Z.eqb_spec (avail_out (stream (wd st2))) 0) as [Hz|_];
    [| eexists; reflexivity].
  apply IH. rewrite next_node_eq. cbn [wd stream]. rewrite Hstrm in Hz |- *.
  cbn [avail_out state next_in] in Hz |- *.
  pose proof (inflate_potential (state (stream (wd st))) (next_in (stream (wd st)))
                CHUNK CHUNK_pos) as Hpot.
  cbv zeta in Hpot. fold (call_of st) in Hpot.
  specialize (Hpot ltac:(lia)). lia.
Qed.

Lemma feed_terminates rest st : exists fuel, is_Some (feed fuel rest st).
Proof.
  remember (length rest) as n eqn:Hn. revert rest st Hn.
  induction n as [n IH] using lt_wf_ind. intros rest st Hn.
  pose proof CHUNK_nat_pos as HN.
  set (st1 := set_input (take (Z.to_nat CHUNK) rest) st).
  destruct (drain_terminates
              (S (potential (state (stream (wd st1))) (next_in (stream (wd st1)))))
              st1 ltac:(lia)) as [o1 Hd].
  set (f1 := S (potential (state (stream (wd st1))) (next_in (stream (wd st1))))) in Hd.
  destruct (Z.eqb_spec (avail_in (stream (wd st1))) 0) as [Hz|Hnz].
  { exists 1%nat. rewrite feed_S. cbv zeta. fold st1.
    destruct (Z.eqb_spec (avail_in (stream (wd st1))) 0); [| contradiction].
    eexists. reflexivity. }
  assert (Hrest : (0 < length rest)%nat).
  { unfold avail_in, st1 in Hnz. cbn [set_input wd stream next_in] in Hnz.
    rewrite length_take in Hnz. lia. }
  destruct o1 as [st2|c st2|].
  - destruct (Z.eqb_spec (ret st2) Z_STREAM_END) as [He|Hne].
    + exists (S f1). rewrite feed_S. cbv zeta. fold st1.
      destruct (Z.eqb_spec (avail_in (stream (wd st1))) 0); [contradiction |].
      rewrite Hd. destruct (Z.eqb_spec (ret st2) Z_STREAM_END); [| contradiction].
      eexists. reflexivity.
    + destruct (IH (length (drop (Z.to_nat CHUNK) rest))
                  ltac:(rewrite length_drop; lia)
                  (drop (Z.to_nat CHUNK) rest) (next_node st2) eq_refl)
        as [f2 [o2 Hf2]].
      exists (S (Nat.max f1 f2)). rewrite feed_S. cbv zeta. fold st1.
      destruct (Z.eqb_spec (avail_in (stream (wd st1))) 0); [contradiction |].
      rewrite (drain_mono f1 (Nat.max f1 f2) _ _ Hd) by lia.
      destruct (Z.eqb_spec (ret st2) Z_STREAM_END); [contradiction |].
      rewrite (feed_mono f2 (Nat.max f1 f2) _ _ _ Hf2) by lia.
      eexists. reflexivity.
  - exists (S f1). rewrite feed_S. cbv zeta. fold st1.
    destruct (Z.eqb_spec (avail_in (stream (wd st1))) 0); [contradiction |].
    rewrite Hd. eexists. reflexivity.
  - exists (S f1). rewrite feed_S. cbv zeta. fold st1.
    destruct (Z.eqb_spec (avail_in (stream (wd st1))) 0); [contradiction |].
    rewrite Hd. eexists. reflexivity.
Qed.

(** From the head of a loop no [memcpy] into a fragment leaves its
    block. *)
Lemma drain_defined fuel st : at_head st -> drain fuel st <> Some Undef.
Proof.
  revert st. induction fuel as [|fuel IH]; intros st Hhead; [discriminate |].
  rewrite drain_S. destruct (drain_step st) as [st2|c st2|] eqn:Hs.
  - destruct (avail_out (stream (wd st2)) =? 0); [| discriminate].
    apply IH, next_node_at_head.
  - discriminate.
  - exfalso. apply (drain_step_head_defined st Hhead); [| exact Hs].
    apply inflate_bounded. pose proof CHUNK_pos. lia.
Qed.

Lemma feed_defined fuel rest st : at_head st -> feed fuel rest st <> Some Undef.
Proof.
  revert rest st. induction fuel as [|fuel IH]; intros rest st Hhead; [discriminate |].
  rewrite feed_S. cbv zeta.
  destruct (avail_in _ =? 0); [discriminate |].
  pose proof (drain_defined fuel _ (set_input_at_head (take (Z.to_nat CHUNK) rest) st Hhead))
    as Hd.
  destruct (drain fuel _) as [[st2|c st2|]|]; try discriminate; [| contradiction].
  destruct (ret st2 =? Z_STREAM_END); [discriminate |].
  apply IH, next_node_at_head.
Qed.

(** Every call returns, unless its total wraps around: then the final
    copy leaves the result buffer. *)
Lemma decode_message_terminates src om outlen0 ret0 (w : world zs) :
  0 <= outlen0 < gulong_max ->
  exists fuel o,
    decode_message fuel src om outlen0 ret0 w = Some o
    /\ (o = None ->
        exists st rest,
          feed fuel src (entry outlen0 ret0 w) = Some (Go (st, rest))
          /\ gulong_max <= outlen0 + sum_len (chain st ++ [outdata st])).
Proof.
  intros Hr.
  destruct (feed_terminates src (entry outlen0 ret0 w)) as [fuel [o Hf]].
  exists fuel. unfold decode_message. rewrite Hf.
  destruct o as [[st rest]|c [st rest]|].
  - exists (finish st). split; [reflexivity |]. intros Hnone.
    exists st, rest. split; [reflexivity |].
    pose proof (data_invariant outlen0 fuel _ _ _ _ (entry_at_head _ _ _)
                  (entry_data_inv outlen0 ret0 w Hr) Hf) as Hinv.
    destruct (Z.le_gt_cases gulong_max (outlen0 + sum_len (chain st ++ [outdata st])))
      as [Hge|Hlt]; [exact Hge |].
    destruct (finish_defined outlen0 st ltac:(lia) Hinv ltac:(lia)) as [r Hfin].
    congruence.
  - eexists. split; [reflexivity | discriminate].
  - exfalso. exact (feed_defined fuel src _ (entry_at_head outlen0 ret0 w) Hf).
Qed.

End Termination.

(** ** At least one call for a non-empty input *)

Section CallsFacts.

Context {zs : Type} `{Inflater zs}.

Implicit Types (st : dstate zs).

Lemma drain_log_nonempty fuel st st' :
  drain fuel st = Some (Go st') -> log st' <> [].
Proof.
  intros Hd.
  pose proof (drain_rule (fun _ => True) (fun st => log st <> []) (fun _ _ => True)) as Hrule.
  assert (Hgo : forall st st2, True -> drain_step st = Go st2 -> log st2 <> []).
  { intros s1 s2 _ (_ & _ & _ & _ & Hl & _)%drain_step_Go. rewrite Hl.
    intros Hnil. apply app_eq_nil in Hnil as [_ [=]]. }
  specialize (Hrule Hgo (fun _ _ _ => Logic.I) (fun _ _ _ _ _ => Logic.I) fuel st Logic.I).
  rewrite Hd in Hrule. apply Hrule.
Qed.

Lemma feed_log_nonempty fuel rest st st' rest' :
  rest <> [] \/ log st <> [] ->
  feed fuel rest st = Some (Go (st', rest')) -> log st' <> [].
Proof.
  revert rest st. induction fuel as [|fuel IH]; intros rest st Hne Hf; [discriminate |].
  rewrite feed_S in Hf. cbv zeta in Hf.
  destruct (Z.eqb_spec (avail_in (stream (wd (set_input (take (Z.to_nat CHUNK) rest) st)))) 0)
    as [Hz|Hnz].
  - injection Hf as <- <-. cbn [set_input log].
    destruct Hne as [Hne|Hne]; [| exact Hne].
    exfalso. apply Hne. unfold avail_in in Hz. cbn [set_input wd stream next_in] in Hz.
    rewrite length_take in Hz. pose proof CHUNK_nat_pos.
    apply length_zero_iff_nil. lia.
  - destruct (drain fuel _) as [[st2|c st2|]|] eqn:Hd; try discriminate.
    pose proof (drain_log_nonempty _ _ _ Hd) as Hl2.
    destruct (ret st2 =? Z_STREAM_END).
    + injection Hf as <- <-. exact Hl2.
    + apply (IH _ (next_node st2) (or_intror Hl2) Hf).
Qed.

End CallsFacts.

(** ** The shape of the chain *)

Lemma drained_snoc fulls nd :
  Forall (fun nd => len nd = CHUNK) fulls -> 0 <= len nd < CHUNK ->
  drained (fulls ++ [nd]).
Proof.
  intros Hf Hnd. induction Hf as [|f fulls Hlen _ IH]; [now constructor |].
  now apply drained_full.
Qed.

Lemma drained_bounded g : drained g -> Forall (fun nd => 0 <= len nd <= CHUNK) g.
Proof.
  pose proof CHUNK_pos.
  induction 1 as [nd Hnd|nd l Hnd _ IH]; constructor; try assumption;
    try constructor; lia.
Qed.

Lemma sliced_by_nil : sliced_by 0 [].
Proof. exists []. repeat split. constructor. Qed.

Lemma sliced_by_snoc k l g :
  sliced_by k l -> drained g -> sliced_by (S k) (l ++ g).
Proof.
  intros (groups & -> & <- & Hall) Hg. exists (groups ++ [g]).
  rewrite concat_app, length_app. cbn [concat length]. rewrite app_nil_r.
  split; [reflexivity |]. split; [lia |].
  apply Forall_app. split; [assumption |]. constructor; [assumption | constructor].
Qed.

Lemma sliced_by_bounded k l :
  sliced_by k l -> Forall (fun nd => 0 <= len nd <= CHUNK) l.
Proof.
  intros (groups & -> & _ & Hall).
  induction Hall as [|g groups Hg _ IH]; [constructor |].
  cbn [concat]. apply Forall_app. split; [now apply drained_bounded | exact IH].
Qed.

Section ShapeFacts.

Context {zs : Type} `{Inflater zs}.

Implicit Types (st : dstate zs).

(** After the inner loop the nodes it added, [outdata] included, are the
    fragments of one slice. *)
Lemma drain_shape fuel st st' :
  at_head st -> drain fuel st = Some (Go st') ->
  exists g, chain st' ++ [outdata st'] = chain st ++ g /\ drained g.
Proof.
  intros Hhead Hd.
  pose proof (drain_rule (fun s => at_head s /\ drain_inv (chain st) s)
                (drain_post (chain st)) (fun _ _ => True)) as Hrule.
  assert (Hgo : forall s s2, at_head s /\ drain_inv (chain st) s ->
                             drain_step s = Go s2 -> drain_post (chain st) s2).
  { intros s s2 [Hh (fulls & Hch & Hfull)] Hgo.
    pose proof (drain_step_Go _ _ Hgo) as (_ & Hstrm & _ & Hch2 & _).
    pose proof (drain_step_head _ _ Hh Hgo) as (Hle & _ & Hod & _).
    split; [exists fulls; rewrite Hch2; split; assumption |].
    rewrite Hod, Hstrm. cbn [len avail_out]. lia. }
  assert (Hnext : forall s2 : dstate zs,
            drain_post (chain st) s2 -> avail_out (stream (wd s2)) = 0 ->
                             at_head (next_node s2) /\ drain_inv (chain st) (next_node s2)).
  { intros s2 ((fulls & Hch & Hfull) & Hr & Hlen) Hz. split; [apply next_node_at_head |].
    exists (fulls ++ [outdata s2]). rewrite next_node_eq. cbn [chain].
    rewrite Hch, <- app_assoc. split; [reflexivity |].
    apply Forall_app. split; [assumption |]. constructor; [lia | constructor]. }
  specialize (Hrule Hgo Hnext (fun _ _ _ _ _ => Logic.I) fuel st).
  rewrite Hd in Hrule.
  destruct Hrule as [((fulls & Hch & Hfull) & Hr & Hlen) Hnz].
  { split; [exact Hhead |]. exists []. rewrite app_nil_r. split; [reflexivity | constructor]. }
  exists (fulls ++ [outdata st']). rewrite Hch, <- app_assoc. split; [reflexivity |].
  apply drained_snoc; [assumption | lia].
Qed.

End ShapeFacts.

(** ** The chain at every point of the loops *)

Lemma last_map {A B : Type} (f : A -> B) (l : list A) :
  last (map f l) = option_map f (last l).
Proof.
  induction l as [|a [|b l] IH]; [reflexivity | reflexivity |].
  exact IH.
Qed.

Section PointFacts.

Context {zs : Type} `{Inflater zs}.

Implicit Types (st : dstate zs).

Lemma drain_points_S fuel st :
  drain_points (S fuel) st
  = match drain_step st with
    | Go st2 =>
      if avail_out (stream (wd st2)) =? 0
      then st2 :: next_node st2 :: drain_points fuel (next_node st2)
      else [st2]
    | Return c st2 => [st2]
    | Undef => []
    end.
Proof. reflexivity. Qed.

Lemma feed_points_S fuel k rest st :
  feed_points (S fuel) k rest st
  = let st1 := set_input (take (Z.to_nat CHUNK) rest) st in
    if avail_in (stream (wd st1)) =? 0 then [(k, st1)]
    else
      (S k, st1) :: map (pair (S k)) (drain_points fuel st1)
      ++ match drain fuel st1 with
         | Some (Go st2) =>
           if ret st2 =? Z_STREAM_END then []
           else (S k, next_node st2)
                :: feed_points fuel (S k) (drop (Z.to_nat CHUNK) rest)
                     (next_node st2)
         | _ => []
         end.
Proof. cbn [feed_points]. rewrite next_slice_eq. reflexivity. Qed.

(** Every state of the inner loop: the chain has grown by full
    fragments only. *)
Lemma drain_points_inv closed fuel : forall st,
  at_head st -> drain_inv closed st ->
  Forall (fun st' => drain_inv closed st' /\ 0 <= len (outdata st') <= CHUNK)
    (drain_points fuel st).
Proof.
  pose proof CHUNK_pos as Hpos.
  induction fuel as [|fuel IH]; intros st Hhead (fulls & Hch & Hfull);
    [constructor |].
  rewrite drain_points_S. destruct (drain_step st) as [st2|c st2|] eqn:Hs;
    [| | constructor].
  - pose proof (drain_step_Go _ _ Hs) as (_ & Hstrm & _ & Hch2 & _).
    pose proof (drain_step_head _ _ Hhead Hs) as (Hle & _ & Hod & _).
    assert (Hlen : len (outdata st2) = CHUNK - avail_out (stream (wd st2))).
    { rewrite Hod, Hstrm. cbn [len avail_out]. lia. }
    assert (Hr : 0 <= len (outdata st2) <= CHUNK).
    { rewrite Hod. cbn [len]. lia. }
    assert (H2 : drain_inv closed st2)
      by (exists fulls; rewrite Hch2; split; assumption).
    destruct (Z.eqb_spec (avail_out (stream (wd st2))) 0) as [Hz|Hnz];
      [| constructor; [split; assumption | constructor]].
    assert (H3 : drain_inv closed (next_node st2)).
    { exists (fulls ++ [outdata st2]). rewrite next_node_eq. cbn [chain].
      rewrite Hch2, Hch, <- app_assoc. split; [reflexivity |].
      apply Forall_app. split; [assumption |]. constructor; [lia | constructor]. }
    constructor; [split; assumption |].
    constructor; [split; [exact H3 | rewrite next_node_eq; cbn; lia] |].
    apply IH; [apply next_node_at_head | exact H3].
  - destruct (drain_step_cases st) as [[_ Hs'] | [(_ & _ & Hs') | (_ & b & _ & Hs')]];
      rewrite Hs' in Hs; try discriminate.
    injection Hs as _ <-. constructor; [| constructor]. split.
    + exists fulls. split; assumption.
    + cbn [outdata len]. rewrite Hhead. cbn [len zeroed_node]. lia.
Qed.

(** The last of them is the state the loop is left in. *)
Lemma drain_points_last fuel : forall st st',
  drain fuel st = Some (Go st') -> last (drain_points fuel st) = Some st'.
Proof.
  induction fuel as [|fuel IH]; intros st st' Hd; [discriminate |].
  rewrite drain_S in Hd. rewrite drain_points_S.
  destruct (drain_step st) as [st2|c st2|]; try discriminate.
  destruct (avail_out (stream (wd st2)) =? 0).
  - cbn [last]. destruct (drain_points fuel (next_node st2)) as [|a l] eqn:Hp.
    + apply IH in Hd. rewrite Hp in Hd. discriminate.
    + apply IH in Hd. rewrite Hp in Hd. exact Hd.
  - now injection Hd as <-.
Qed.

Lemma fragments_ok_between k st :
  at_head st -> sliced_by k (chain st) -> fragments_ok k st.
Proof.
  intros Hhead Hs. exists (chain st), []. rewrite app_nil_r.
  pose proof CHUNK_pos. rewrite Hhead. cbn [len zeroed_node].
  split; [reflexivity |]. split; [constructor |]. split; [lia |].
  left. repeat split. exact Hs.
Qed.

Lemma fragments_ok_bounded k st :
  fragments_ok k st ->
  Forall (fun nd => 0 <= len nd <= CHUNK) (chain st ++ [outdata st]).
Proof.
  pose proof CHUNK_pos as Hpos.
  intros (done & fulls & -> & Hfull & Hr & Hcase).
  apply Forall_app. split; [apply Forall_app; split |].
  - destruct Hcase as [(Hs & _)|(j & _ & Hs)]; eapply sliced_by_bounded, Hs.
  - eapply Forall_impl; [exact Hfull |]. intros nd Hnd. cbn beta in Hnd. lia.
  - constructor; [exact Hr | constructor].
Qed.

(** Every state of the outer loop. *)
Lemma feed_points_inv fuel : forall k rest st,
  at_head st -> sliced_by k (chain st) ->
  Forall (fun p => fragments_ok p.1 p.2) (feed_points fuel k rest st).
Proof.
  pose proof CHUNK_pos as Hpos.
  induction fuel as [|fuel IH]; intros k rest st Hhead Hs; [constructor |].
  rewrite feed_points_S. cbv zeta.
  set (st1 := set_input (take (Z.to_nat CHUNK) rest) st).
  assert (Hh1 : at_head st1) by (apply set_input_at_head, Hhead).
  assert (Hs1 : sliced_by k (chain st1)) by exact Hs.
  destruct (avail_in (stream (wd st1)) =? 0).
  { constructor; [| constructor]. now apply fragments_ok_between. }
  assert (Hin : drain_inv (chain st1) st1).
  { exists []. rewrite app_nil_r. split; [reflexivity | constructor]. }
  constructor.
  { exists (chain st1), []. rewrite app_nil_r. rewrite Hh1. cbn [len zeroed_node].
    split; [reflexivity |]. split; [constructor |]. split; [lia |].
    right. exists k. split; [reflexivity | exact Hs1]. }
  apply Forall_app. split.
  { apply Forall_map.
    eapply Forall_impl; [apply (drain_points_inv (chain st1) fuel st1 Hh1 Hin) |].
    intros st' [(fulls & Hch & Hfull) Hr]. cbn [fst snd].
    exists (chain st1), fulls. split; [exact Hch |]. split; [exact Hfull |].
    split; [exact Hr |]. right. exists k. split; [reflexivity | exact Hs1]. }
  destruct (drain fuel st1) as [[st2|c st2|]|] eqn:Hd; try constructor.
  destruct (ret st2 =? Z_STREAM_END); [constructor |].
  destruct (drain_shape _ _ _ Hh1 Hd) as (g & Hg & Hdr).
  assert (Hs2 : sliced_by (S k) (chain (next_node st2))).
  { rewrite next_node_eq. cbn [chain]. rewrite Hg. now apply sliced_by_snoc. }
  constructor.
  - apply fragments_ok_between; [apply next_node_at_head | exact Hs2].
  - apply IH; [apply next_node_at_head | exact Hs2].
Qed.

(** Where the outer loop is left normally: the state is the last one
    passed through, [m] more slices have been taken, all of them
    non-empty, and the chain holds their fragments. *)
Lemma feed_points_exit fuel : forall k rest st st' rest',
  at_head st -> sliced_by k (chain st) ->
  feed fuel rest st = Some (Go (st', rest')) ->
  exists m,
    last (feed_points fuel k rest st) = Some ((k + m)%nat, st')
    /\ rest' = drop (m * Z.to_nat CHUNK) rest
    /\ (m * Z.to_nat CHUNK < length rest + Z.to_nat CHUNK)%nat
    /\ ((sliced_by (k + m) (chain st') /\ at_head st')
        \/ (sliced_by (k + m) (chain st' ++ [outdata st'])
            /\ ret st' = Z_STREAM_END)).
Proof.
  pose proof CHUNK_nat_pos as Hpos.
  induction fuel as [|fuel IH]; intros k rest st st' rest' Hhead Hs Hf;
    [discriminate |].
  rewrite feed_S in Hf. rewrite feed_points_S. cbv zeta in Hf |- *.
  set (st1 := set_input (take (Z.to_nat CHUNK) rest) st) in *.
  assert (Hh1 : at_head st1) by (apply set_input_at_head, Hhead).
  assert (Hs1 : sliced_by k (chain st1)) by exact Hs.
  destruct (Z.eqb_spec (avail_in (stream (wd st1))) 0) as [Hz|Hnz].
  { injection Hf as <- <-. exists 0%nat. rewrite Nat.add_0_r.
    assert (Hnil : rest = []).
    { unfold avail_in in Hz. cbn in Hz.
      assert (Hl : length (take (Z.to_nat CHUNK) rest) = 0%nat) by lia.
      rewrite length_take in Hl. destruct rest; [reflexivity | cbn in Hl; lia]. }
    split; [reflexivity |]. rewrite Hnil, drop_nil. cbn [length drop Nat.mul].
    split; [reflexivity |]. split; [lia |]. left. split; assumption. }
  assert (Hne : rest <> []).
  { intros ->. apply Hnz. unfold avail_in. cbn. now rewrite take_nil. }
  destruct (drain fuel st1) as [[st2|c st2|]|] eqn:Hd; try discriminate.
  destruct (drain_shape _ _ _ Hh1 Hd) as (g & Hg & Hdr).
  pose proof (drain_points_last _ _ _ Hd) as Hlast.
  destruct (Z.eqb_spec (ret st2) Z_STREAM_END) as [He|Hnend].
  - injection Hf as <- <-. exists 1%nat.
    split.
    { rewrite app_nil_r. change (?a :: ?l) with ([a] ++ l).
      rewrite last_app, last_map, Hlast. cbn. now rewrite Nat.add_1_r. }
    split; [now rewrite Nat.mul_1_l |].
    split; [destruct rest; [contradiction | cbn [length]; lia] |].
    right. split; [| exact He]. rewrite Hg, Nat.add_1_r. now apply sliced_by_snoc.
  - assert (Hs2 : sliced_by (S k) (chain (next_node st2))).
    { rewrite next_node_eq. cbn [chain]. rewrite Hg. now apply sliced_by_snoc. }
    destruct (IH (S k) _ _ _ _ (next_node_at_head st2) Hs2 Hf)
      as (m & Hl & Hrest & Hm & Hshape).
    exists (S m). replace (k + S m)%nat with (S k + m)%nat by lia.
    split.
    { rewrite app_comm_cons, last_app.
      change (?a :: ?l) with ([a] ++ l) at 1. rewrite last_app, Hl. reflexivity. }
    split.
    { rewrite Hrest, drop_drop. f_equal; lia. }
    split.
    { rewrite length_drop in Hm. destruct rest; [contradiction |]. cbn [length] in *.
      destruct m; lia. }
    exact Hshape.
Qed.

End PointFacts.

(** ** The heap *)

Lemma owned_app l1 l2 : owned (l1 ++ l2) = owned l1 ∪ owned l2.
Proof.
  unfold owned. induction l1 as [|nd l1 IH]; simpl; [set_solver |].
  rewrite IH. set_solver.
Qed.

Lemma owned_snoc l nd :
  owned (l ++ [nd]) = owned l ∪ (ptr_set (addr nd) ∪ ptr_set (data nd)).
Proof. rewrite owned_app. unfold owned. simpl. set_solver. Qed.

Lemma g_free_live p h : live (g_free p h) = live h ∖ ptr_set p.
Proof. destruct p; simpl; set_solver. Qed.

Lemma g_free_brk p h : brk (g_free p h) = brk h.
Proof. destruct p; reflexivity. Qed.

Lemma free_nodes_live nodes h : live (free_nodes nodes h) = live h ∖ owned nodes.
Proof.
  unfold free_nodes, owned. revert h.
  induction nodes as [|nd next IH]; intros h; simpl; [set_solver |].
  rewrite IH, !g_free_live. set_solver.
Qed.

Lemma free_nodes_brk nodes h : brk (free_nodes nodes h) = brk h.
Proof.
  unfold free_nodes. revert h.
  induction nodes as [|nd next IH]; intros h; simpl; [reflexivity |].
  now rewrite IH, !g_free_brk.
Qed.

Section HeapFacts.

Context {zs : Type} `{Inflater zs}.

Implicit Types (st : dstate zs).

Lemma copy_out_heap nodes buf idx h b h' :
  copy_out nodes buf idx h = Some (b, h') -> h' = free_nodes nodes h.
Proof.
  revert buf idx h. induction nodes as [|nd next IH]; intros buf idx h Hc.
  - now injection Hc as _ <-.
  - cbn [copy_out] in Hc. destruct (memcpy _ _ _ _); [| discriminate].
    apply IH in Hc. exact Hc.
Qed.

Lemma entry_heap_inv outlen0 ret0 (w : world zs) :
  heap_inv (hp w) (entry outlen0 ret0 w).
Proof.
  unfold heap_inv. cbn. repeat split; try set_solver.
  all: intros b Hb; assert (b = brk (hp w)) as -> by set_solver; lia.
Qed.

Lemma heap_inv_step h0 st st2 :
  at_head st -> heap_inv h0 st -> drain_step st = Go st2 -> heap_inv h0 st2.
Proof.
  intros Hhead (Hlive & Hrange & Hmem) Hgo.
  pose proof (drain_step_Go _ _ Hgo) as (_ & _ & _ & Hch & _).
  pose proof (drain_step_head _ _ Hhead Hgo) as (_ & Hhp & Hod & _).
  rewrite Hhead in Hlive, Hrange, Hmem.
  rewrite owned_snoc in Hlive, Hrange, Hmem. cbn [zeroed_node addr data ptr_set] in *.
  unfold heap_inv. rewrite Hch, Hhp, Hod, owned_snoc. cbn [addr data ptr_set live brk].
  repeat split.
  - rewrite Hlive. set_solver.
  - assert (Hb : b = brk (hp (wd st)) \/ b ∈ owned (chain st) ∪ (ptr_set (addr (outdata st)) ∪ ∅))
      by set_solver.
    destruct Hb as [->|Hb]; [| apply Hrange in Hb; lia].
    specialize (Hrange _ Hmem). lia.
  - assert (Hb : b = brk (hp (wd st)) \/ b ∈ owned (chain st) ∪ (ptr_set (addr (outdata st)) ∪ ∅))
      by set_solver.
    destruct Hb as [->|Hb]; [lia | apply Hrange in Hb; lia].
  - set_solver.
Qed.

Lemma heap_inv_return h0 st c st2 :
  at_head st -> heap_inv h0 st -> drain_step st = Return c st2 -> heap_inv h0 st2.
Proof.
  intros Hhead (Hlive & Hrange & Hmem) Hret.
  pose proof (drain_step_Return _ _ _ Hret)
    as (_ & _ & _ & _ & _ & Hch & _ & Had & Hda & Hhp).
  rewrite Hhead in Hlive, Hrange, Hmem.
  rewrite owned_snoc in Hlive, Hrange, Hmem. cbn [zeroed_node addr data ptr_set] in *.
  unfold heap_inv. rewrite Hch, Hhp, owned_snoc, Had, Hda. cbn [ptr_set live brk].
  repeat split.
  - rewrite Hlive. set_solver.
  - assert (Hb : b = brk (hp (wd st)) \/ b ∈ owned (chain st) ∪ (ptr_set (addr (outdata st)) ∪ ∅))
      by set_solver.
    destruct Hb as [->|Hb]; [| apply Hrange in Hb; lia].
    specialize (Hrange _ Hmem). lia.
  - assert (Hb : b = brk (hp (wd st)) \/ b ∈ owned (chain st) ∪ (ptr_set (addr (outdata st)) ∪ ∅))
      by set_solver.
    destruct Hb as [->|Hb]; [lia | apply Hrange in Hb; lia].
  - set_solver.
Qed.

Lemma heap_inv_next h0 st : heap_inv h0 st -> heap_inv h0 (next_node st).
Proof.
  intros (Hlive & Hrange & Hmem). rewrite next_node_eq. unfold heap_inv.
  cbn [wd hp chain outdata live brk]. rewrite owned_snoc.
  cbn [zeroed_node addr data ptr_set].
  repeat split.
  - rewrite Hlive. set_solver.
  - assert (Hb : b = brk (hp (wd st)) \/ b ∈ owned (chain st ++ [outdata st]))
      by set_solver.
    destruct Hb as [->|Hb]; [| apply Hrange in Hb; lia].
    specialize (Hrange _ Hmem). lia.
  - assert (Hb : b = brk (hp (wd st)) \/ b ∈ owned (chain st ++ [outdata st]))
      by set_solver.
    destruct Hb as [->|Hb]; [lia | apply Hrange in Hb; lia].
  - set_solver.
Qed.

Lemma heap_invariant h0 fuel rest st :
  at_head st -> heap_inv h0 st ->
  match feed fuel rest st with
  | Some (Go (st', _)) => heap_inv h0 st'
  | Some (Return _ (st', _)) => heap_inv h0 st'
  | _ => True
  end.
Proof.
  intros Hhead HI.
  pose proof (loops_rule (fun st => at_head st /\ heap_inv h0 st)
                (heap_inv h0) (fun _ st => heap_inv h0 st)) as Hrule.
  specialize (Hrule (fun st inb HI => HI)).
  specialize (Hrule (fun st st2 HI Hgo => heap_inv_step _ _ _ (proj1 HI) (proj2 HI) Hgo)).
  specialize (Hrule (fun st2 HP => conj (next_node_at_head st2) (heap_inv_next _ _ HP))).
  specialize (Hrule (fun st c st2 HI Hr => heap_inv_return _ _ _ _ (proj1 HI) (proj2 HI) Hr)).
  specialize (Hrule fuel rest st (conj Hhead HI)).
  destruct (feed fuel rest st) as [[[st' rest']|c [st' rest']|]|];
    try exact Logic.I; try assumption.
  destruct Hrule as [[[_ ?] _]|[? _]]; assumption.
Qed.

(** A return through the final copy leaves in use what was in use on
    entry and the result buffer. *)
Lemma finish_heap h0 st r :
  heap_wf h0 -> heap_inv h0 st -> finish st = Some r ->
  live (hp (r_world r)) = live h0 ∪ ptr_set (r_outmsg r).
Proof.
  intros Hwf (Hlive & Hrange & _) Hfin. unfold finish in Hfin.
  destruct (g_malloc0 (outlen st) (hp (wd st))) as [m h1] eqn:Hm.
  destruct (copy_out _ _ 0 h1) as [[b h2]|] eqn:Hc; [| discriminate].
  injection Hfin as <-. cbn [r_world hp r_outmsg].
  apply copy_out_heap in Hc as ->. rewrite free_nodes_live.
  assert (Hdisj : forall b', b' ∈ owned (chain st ++ [outdata st]) -> b' ∉ live h0).
  { intros b' Hb' Hl. apply Hrange in Hb'. apply Hwf in Hl. lia. }
  unfold g_malloc0 in Hm. destruct (outlen st =? 0).
  - injection Hm as <- <-. rewrite Hlive. cbn [ptr_set]. set_solver.
  - injection Hm as <- <-. cbn [live ptr_set]. rewrite Hlive.
    assert (Hm : brk (hp (wd st)) ∉ owned (chain st ++ [outdata st])).
    { intros Hb. apply Hrange in Hb. lia. }
    set_solver.
Qed.

(** A return at line 304 leaves the chain in use: the head node, for
    one, is still allocated, and was not before the call. *)
Lemma fatal_exit_heap h0 st :
  heap_wf h0 -> heap_inv h0 st ->
  brk h0 ∈ live (hp (wd st)) /\ brk h0 ∉ live h0.
Proof.
  intros Hwf (Hlive & _ & Hmem). split.
  - rewrite Hlive. set_solver.
  - intros Hl. apply Hwf in Hl. lia.
Qed.

End HeapFacts.

(** ** The toy decompressor meets the contracts *)

Module ToyFacts.
Import Toy ToySpec.

Lemma compress_cons b x : compress (b :: x) = x01 :: b :: compress x.
Proof. reflexivity. Qed.

Lemma toy_compress_nonempty x : compress x <> [].
Proof. destruct x; discriminate. Qed.

Ltac toy_close :=
  try first
    [ left; reflexivity | right; reflexivity | discriminate | reflexivity
    | lia | simpl; lia | assumption
    | eexists _, _; split; reflexivity ].

Lemma run_expects inp : forall m c x room,
  expects m c x -> agree inp c ->
  let r := run m inp room in
  let k := ir_consumed r in
  let n := length (ir_out r) in
  ir_out r = take n x
  /\ (k <= length c)%nat
  /\ expects (ir_state r) (drop k c) (drop n x)
  /\ (ir_ret r = Z_OK \/ ir_ret r = Z_STREAM_END)
  /\ (ir_ret r = Z_STREAM_END -> k = length c /\ n = length x)
  /\ ((n < room)%nat ->
      k = Nat.min (length inp) (length c)
      /\ ((length c <= length inp)%nat -> ir_ret r = Z_STREAM_END)).
Proof.
  induction inp as [|a inp IH]; intros m c x room Hex Hag.
  - destruct m; simpl in Hex; try contradiction.
    + subst c. pose proof (toy_compress_nonempty x) as Hne.
      cbn. repeat split; toy_close.
      intros Hle. destruct (compress x); [congruence | simpl in Hle; lia].
    + destruct Hex as (b & x' & -> & ->).
      cbn. repeat split; toy_close.
    + destruct Hex as [-> ->]. cbn. repeat split; toy_close.
  - destruct m; simpl in Hex; try contradiction.
    + subst c. destruct x as [|b x].
      * destruct Hag as [-> _]. cbn. repeat split; toy_close.
      * rewrite compress_cons in Hag |- *. destruct Hag as [-> Hag].
        assert (Hex1 : expects Lit (b :: compress x) (b :: x))
          by (exists b, x; split; reflexivity).
        destruct (IH Lit _ _ room Hex1 Hag) as (Hout & Hk & Hex' & Hret & Hend & Hroom).
        cbv zeta in Hout, Hk, Hex', Hret, Hend, Hroom.
        change (run Tag (x01 :: inp) room) with (bump (run Lit inp room)).
        cbv zeta. cbn [bump ir_consumed ir_out ir_ret ir_state].
        simpl length in *.
        split; [exact Hout |]. split; [lia |].
        split; [exact Hex' |]. split; [exact Hret |].
        split.
        { intros He. destruct (Hend He) as [Hk' Hn']. simpl length in *. lia. }
        intros Hlt. destruct (Hroom Hlt) as [Hk' Hfin]. simpl length in *.
        split; [lia |]. intros Hle. apply Hfin. lia.
    + destruct Hex as (b & x' & -> & ->). destruct Hag as [-> Hag].
      destruct room as [|room].
      * cbn. repeat split; toy_close.
      * destruct (IH Tag (compress x') x' room eq_refl Hag)
          as (Hout & Hk & Hex' & Hret & Hend & Hroom).
        cbv zeta in Hout, Hk, Hex', Hret, Hend, Hroom.
        change (run Lit (b :: inp) (S room)) with (emit b (run Tag inp room)).
        cbv zeta. cbn [emit ir_consumed ir_out ir_ret ir_state].
        simpl length in *.
        split; [simpl; f_equal; exact Hout |]. split; [lia |].
        split; [exact Hex' |]. split; [exact Hret |].
        split.
        { intros He. destruct (Hend He) as [Hk' Hn']. simpl length in *. lia. }
        intros Hlt. simpl length in *. destruct (Hroom ltac:(lia)) as [Hk' Hfin].
        split; [lia |]. intros Hle. apply Hfin. lia.
    + destruct Hex as [-> ->]. cbn. repeat split; toy_close.
Qed.

Lemma compress_length x : length (compress x) = S (2 * length x).
Proof.
  induction x as [|b x IH]; [reflexivity |].
  rewrite compress_cons. simpl length. rewrite IH. lia.
Qed.

(** Every stored byte used up a byte of input. *)
Lemma run_bounds inp : forall m room,
  (length (ir_out (run m inp room)) <= ir_consumed (run m inp room) <= length inp)%nat
  /\ (length (ir_out (run m inp room)) <= room)%nat.
Proof.
  induction inp as [|a inp IH]; intros m room.
  - destruct m; simpl; lia.
  - destruct m; try (simpl; lia).
    + destruct (IH Lit room) as [IH1 IH2].
      destruct a; simpl; lia.
    + destruct room as [|room]; [simpl; lia |].
      destruct (IH Tag room) as [IH1 IH2]. simpl. lia.
Qed.

(** The last step of [toy_inflate] changes the return code only. *)
Lemma toy_inflate_run m inp room :
  let r := run m inp (Z.to_nat room) in
  ir_consumed (toy_inflate m inp room) = ir_consumed r
  /\ ir_out (toy_inflate m inp room) = ir_out r
  /\ ir_state (toy_inflate m inp room) = ir_state r
  /\ (ir_ret (toy_inflate m inp room) = ir_ret r
      \/ (ir_ret (toy_inflate m inp room) = Z_BUF_ERROR /\ ir_ret r = Z_OK)).
Proof.
  intros r. unfold toy_inflate. fold r.
  destruct (Z.eqb_spec (ir_ret r) Z_OK) as [He|Hne]; cbn [andb];
    [| repeat split; left; reflexivity].
  destruct (Nat.eqb_spec (ir_consumed r) 0) as [Hk|Hk]; cbn [andb];
    [| repeat split; left; reflexivity].
  destruct (Nat.eqb_spec (length (ir_out r)) 0) as [Hn|Hn];
    [| repeat split; left; reflexivity].
  cbn [ir_consumed ir_out ir_state ir_ret]. repeat split.
  - now rewrite Hk.
  - symmetry. now apply length_zero_iff_nil.
  - right. split; [reflexivity | exact He].
Qed.

Lemma toy_decodes : Decodes compress expects.
Proof.
  split.
  - apply toy_compress_nonempty.
  - exists Tag. split; [reflexivity |]. intros x. reflexivity.
  - intros s c x inp room Hex Hroom Hag. cbv zeta.
    change (inflate s inp room) with (toy_inflate s inp room).
    destruct (toy_inflate_run s inp room) as (-> & -> & -> & Hret).
    pose proof (run_bounds inp s (Z.to_nat room)) as [[Hb1 Hb2] Hb3].
    destruct (run_expects inp s c x (Z.to_nat room) Hex Hag)
      as (Hout & Hk & Hex' & Hcode & Hend & Hfin).
    split; [lia |]. split; [exact Hk |]. split; [lia |].
    split; [exact Hout |]. split; [exact Hex' |]. split.
    { destruct Hret as [->|[-> _]]; [| reflexivity].
      destruct Hcode as [->| ->]; reflexivity. }
    split.
    { intros He. apply Hend. destruct Hret as [<-|[Hb _]]; [exact He |].
      rewrite Hb in He. discriminate. }
    intros Hlt. destruct (Hfin ltac:(lia)) as [Hk' Hfin']. split; [exact Hk' |].
    intros Hle. specialize (Hfin' Hle).
    destruct Hret as [->|[_ Hok]]; [exact Hfin' |].
    rewrite Hok in Hfin'. discriminate.
Qed.

Lemma toy_productive : Productive potential.
Proof.
  split; intros s inp room Hroom; cbv zeta;
    change (inflate s inp room) with (toy_inflate s inp room);
    destruct (toy_inflate_run s inp room) as (Hk & Hout & _ & _);
    pose proof (run_bounds inp s (Z.to_nat room)) as [[Hb1 Hb2] Hb3].
  - rewrite Hout. lia.
  - rewrite Hk, Hout. intros Hfull. unfold potential. rewrite length_drop. lia.
Qed.

Lemma world0_expects x : expects (state (stream world0)) (compress x) x.
Proof. reflexivity. Qed.

Lemma heap0_wf : heap_wf heap0.
Proof. intros b Hb. cbn in Hb. set_solver. Qed.

End ToyFacts.

(** ** The buffer handed to [decode_message] *)

Section BufferFacts.

Context {zs : Type} `{Inflater zs}.

(** A buffer whose size is a [gint] is handed over whole. *)
Lemma process_data_in_range fuel buf ret0 (w : world zs) :
  Z.of_nat (length buf) < gint_max ->
  gst_gzdec_process_data fuel buf ret0 w
  = match decode_message fuel buf (None, []) 0 ret0 w with
    | None => None
    | Some None => Some None
    | Some (Some r) =>
      Some (Some {| pd_decodedmsg := r_outmsg r; pd_outbuf := r_bytes r;
                    pd_decodedmsglen := r_outlen r;
                    pd_buf := replicate (length buf) xff;
                    pd_world := r_world r |})
    end.
Proof.
  intros Hlen. unfold gst_gzdec_process_data. cbv zeta.
  rewrite gint_of_gsize_small by lia.
  destruct (Z.ltb_spec (Z.of_nat (length buf)) 0); [lia |].
  rewrite Nat2Z.id, take_ge by lia. reflexivity.
Qed.

(** A buffer of [2^31] bytes or more, and fewer than [2^32]: [srclen]
    is negative. *)
Lemma process_data_negative_srclen fuel buf ret0 (w : world zs) :
  gint_max <= Z.of_nat (length buf) < 2 ^ 32 ->
  gst_gzdec_process_data fuel buf ret0 w = Some None.
Proof.
  intros Hlen. unfold gst_gzdec_process_data, gint_of_gsize, gint_max in *.
  cbv zeta. rewrite Z.mod_small by lia.
  destruct (Z.ltb_spec (Z.of_nat (length buf)) (2 ^ 31)); [lia |].
  destruct (Z.ltb_spec (Z.of_nat (length buf) - 2 ^ 32) 0); [reflexivity | lia].
Qed.

End BufferFacts.

(** ** Heap effect of a whole call *)

Section CallHeap.

Context {zs : Type} `{Inflater zs}.

(** X6.  A call that returns through the final copy has freed every
    node and every block of its chain: what is allocated afterwards is
    what was allocated before and the result buffer. *)
Lemma normal_return_frees_chain fuel src om outlen0 ret0 (w : world zs) r :
  heap_wf (hp w) ->
  decode_message fuel src om outlen0 ret0 w = Some (Some r) ->
  Forall (fun c => fatal (ir_ret c) = false) (r_log r) ->
  live (hp (r_world r)) = live (hp w) ∪ ptr_set (r_outmsg r).
Proof.
  intros Hwf Hd Hnf.
  destruct (decode_message_finished _ _ _ _ _ _ _ Hd Hnf) as (st & rest & Hf & Hfin).
  pose proof (heap_invariant (hp w) fuel src _ (entry_at_head outlen0 ret0 w)
                (entry_heap_inv outlen0 ret0 w)) as Hinv.
  rewrite Hf in Hinv. exact (finish_heap _ _ _ Hwf Hinv Hfin).
Qed.

(** X7.  A call that returns at line 304, after a fatal code, has
    freed nothing: the head node of the chain, allocated by this call,
    is still allocated. *)
Lemma every_fatal_return_leaks fuel src om outlen0 ret0 (w : world zs) r :
  heap_wf (hp w) ->
  decode_message fuel src om outlen0 ret0 w = Some (Some r) ->
  Exists (fun c => fatal (ir_ret c) = true) (r_log r) ->
  brk (hp w) ∈ live (hp (r_world r)) /\ brk (hp w) ∉ live (hp w).
Proof.
  intros Hwf Hd Hex. unfold decode_message in Hd.
  pose proof (heap_invariant (hp w) fuel src _ (entry_at_head outlen0 ret0 w)
                (entry_heap_inv outlen0 ret0 w)) as Hinv.
  pose proof (log_invariant ret0 fuel src _ (entry_log_inv outlen0 ret0 w)) as Hlog.
  destruct (feed fuel src _) as [[[st rest]|c [st rest]|]|]; try discriminate.
  - exfalso. injection Hd as Hd. destruct Hlog as [_ Hnf].
    unfold finish in Hd. destruct (g_malloc0 _ _) as [m h1].
    destruct (copy_out _ _ _ _) as [[b h2]|]; [| discriminate].
    injection Hd as <-. cbn [r_log] in Hex.
    apply Exists_exists in Hex as (c & Hc & Hfc).
    rewrite Forall_forall in Hnf. specialize (Hnf c Hc). congruence.
  - injection Hd as <-. cbn [r_world]. exact (fatal_exit_heap _ _ Hwf Hinv).
Qed.

End CallHeap.

(** * The properties of the specification *)

Section Properties.

Context {zs : Type} `{Inflater zs}.


(** C9.  Trailing bytes.  When the stream [compress x] is followed by
    any bytes [junk], the outer loop is left with [Z_STREAM_END] after
    the [m] slices that hold the stream: everything after those slices
    is never copied to [inbuffer], and the call returns [Z_OK] with
    exactly [x]. *)
Theorem trailing_bytes_ignored
    (compress : list byte -> list byte)
    (expects : zs -> list byte -> list byte -> Prop)
    (Hdec : Decodes compress expects)
    (x junk : list byte) (om : ptr * list byte) (ret0 : Z) (h : heap)
    (fuel : nat) :
  Z.of_nat (length x) < gulong_max ->
  (length (compress x) + length x < fuel)%nat ->
  exists st m r,
    feed fuel (compress x ++ junk) (entry 0 ret0 (snd (init_decoder h)))
    = Some (Go (st, drop (m * Z.to_nat CHUNK) (compress x ++ junk)))
    /\ (length (compress x) <= m * Z.to_nat CHUNK
        < length (compress x) + Z.to_nat CHUNK)%nat
    /\ ret st = Z_STREAM_END
    /\ decode_message fuel (compress x ++ junk) om 0 ret0 (snd (init_decoder h))
       = Some (Some r)
    /\ r_code r = Z_OK
    /\ r_bytes r = x
    /\ r_outlen r = Z.of_nat (length x).
Proof.
  intros Hlen Hfuel.
  destruct init_expects as (s & Hinit & Hex).
  unfold init_decoder. rewrite Hinit. cbn [fst snd].
  destruct (decode_stream x junk om 0 ret0 {| stream := ZStream [] 0 s; hp := h |} fuel)
    as (st & m & r & Hf & Hm & He & Hd & Hc & Hb & Hol & _);
    [apply Hex | lia | lia | exact Hfuel |].
  rewrite app_nil_r in Hb. exists st, m, r. repeat split; try assumption; lia.
Qed.

(** C3.  Incomplete input.  For a decompressor that keeps to its output
    buffer and cannot fill it for ever, every call returns a result,
    short of a total that wraps around [gulong]; and when no [inflate]
    call of the run returned [Z_STREAM_END], the call does not return
    [Z_OK]: it returns [Z_DATA_ERROR] from line 340 unless a fatal code
    ended it before.  The input is non-empty, or else the value the
    uninitialised [ret] happens to hold is not [Z_STREAM_END]. *)
Theorem incomplete_input_reported
    (potential : zs -> list byte -> nat) (Hprod : Productive potential)
    (src : list byte) (om : ptr * list byte) (outlen0 ret0 : Z)
    (w : world zs) :
  0 <= outlen0 < gulong_max ->
  src <> [] \/ ret0 <> Z_STREAM_END ->
  (exists fuel o,
     decode_message fuel src om outlen0 ret0 w = Some o
     /\ (o = None ->
         exists st rest,
           feed fuel src (entry outlen0 ret0 w) = Some (Go (st, rest))
           /\ gulong_max <= outlen0 + sum_len (chain st ++ [outdata st])))
  /\ forall fuel r,
       decode_message fuel src om outlen0 ret0 w = Some (Some r) ->
       Z_STREAM_END ∉ codes (r_log r) ->
       r_code r <> Z_OK
       /\ (Forall (fun c => fatal (ir_ret c) = false) (r_log r) ->
           r_code r = Z_DATA_ERROR).
Proof.
  intros Hrange.
  intros Hsrc. split; [apply decode_message_terminates, Hrange |].
  intros fuel r Hd Hnoend. unfold decode_message in Hd.
  pose proof (log_invariant ret0 fuel src _ (entry_log_inv outlen0 ret0 w)) as Hlog.
  destruct (feed fuel src _) as [[[st rest]|c [st rest]|]|] eqn:Hf; try discriminate.
  - injection Hd as Hd. destruct Hlog as [Hret _].
    assert (Hne : ret st <> Z_STREAM_END).
    { rewrite Hret. destruct (last (codes (log st))) as [c|] eqn:Hlast;
        cbn [default from_option id].
      - intros ->. apply Hnoend.
        unfold finish in Hd. destruct (g_malloc0 _ _) as [m h1].
        destruct (copy_out _ _ _ _) as [[b h2]|]; [| discriminate].
        injection Hd as <-. cbn [r_log]. now apply last_Some_elem_of.
      - destruct Hsrc as [Hsrc|Hret0]; [| exact Hret0].
        exfalso. apply last_None in Hlast.
        apply (feed_log_nonempty _ _ _ _ _ (or_introl Hsrc) Hf).
        unfold codes in Hlast. now apply map_eq_nil in Hlast. }
    unfold finish in Hd. destruct (g_malloc0 _ _) as [m h1].
    destruct (copy_out _ _ _ _) as [[b h2]|]; [| discriminate].
    injection Hd as <-. cbn [r_code].
    destruct (Z.eqb_spec (ret st) Z_STREAM_END); [contradiction |].
    split; [discriminate | reflexivity].
  - injection Hd as <-. cbn [r_code r_log].
    destruct Hlog as (lg & c0 & Hl & Hnf & Hfat & -> & _). split.
    + unfold fatal_code, fatal in *.
      destruct (Z.eqb_spec (ir_ret c0) Z_NEED_DICT); [discriminate |].
      intros Hc. rewrite Hc in Hfat. discriminate.
    + intros Hall. rewrite Hl in Hall. apply Forall_app in Hall as [_ Hall].
      apply Forall_cons in Hall as [Hall _]. congruence.
Qed.

(** C4.  Fatal codes.  In every run, an [inflate] call that returns
    [Z_NEED_DICT], [Z_DATA_ERROR], [Z_MEM_ERROR] or [Z_STREAM_ERROR] is
    the last call of the run: no call before it was fatal and nothing is
    fed after it.  The session is closed with [inflateEnd], [*outmsg] is
    left as it was, and the code returned is the code of that call,
    [Z_DATA_ERROR] standing in for [Z_NEED_DICT]. *)
Theorem fatal_code_aborts
    (fuel : nat) (src : list byte) (om : ptr * list byte) (outlen0 ret0 : Z)
    (w : world zs) (r : result zs) (c : inflate_result zs) :
  decode_message fuel src om outlen0 ret0 w = Some (Some r) ->
  c ∈ r_log r -> fatal (ir_ret c) = true ->
  (exists earlier,
     r_log r = earlier ++ [c]
     /\ Forall (fun c' => fatal (ir_ret c') = false) earlier)
  /\ r_code r = (if ir_ret c =? Z_NEED_DICT then Z_DATA_ERROR else ir_ret c)
  /\ state (stream (r_world r)) = inflateEnd (ir_state c)
  /\ r_outmsg r = fst om /\ r_bytes r = snd om.
Proof.
  intros Hd Hin Hfat. unfold decode_message in Hd.
  pose proof (log_invariant ret0 fuel src _ (entry_log_inv outlen0 ret0 w)) as Hlog.
  destruct (feed fuel src _) as [[[st rest]|c1 [st rest]|]|]; try discriminate.
  - exfalso. injection Hd as Hd. destruct Hlog as [_ Hnf].
    unfold finish in Hd. destruct (g_malloc0 _ _) as [m h1].
    destruct (copy_out _ _ _ _) as [[b h2]|]; [| discriminate].
    injection Hd as <-. cbn [r_log] in Hin.
    rewrite Forall_forall in Hnf. specialize (Hnf c Hin). congruence.
  - injection Hd as <-. cbn [r_log r_code r_world r_outmsg r_bytes] in *.
    destruct Hlog as (lg & c0 & Hl & Hnf & Hfat0 & -> & _ & Hstate).
    rewrite Hl in Hin. apply elem_of_app in Hin as [Hin|Hin].
    + exfalso. rewrite Forall_forall in Hnf. specialize (Hnf c Hin). congruence.
    + apply list_elem_of_singleton in Hin as ->.
      split; [exists lg; split; assumption |].
      repeat split; try reflexivity. exact Hstate.
Qed.

(** C10.  [*outlen] is added to, never reset.  For a call that returns
    through the final copy, [*outlen] is its value on entry plus the
    number of bytes decoded, and the result buffer has that size: the
    decoded bytes followed by as many zero bytes as [*outlen] held on
    entry.  So length and buffer are right when [*outlen] was 0, and
    with any other value the length returned exceeds the bytes
    decoded. *)
Theorem outlen_accumulates
    (fuel : nat) (src : list byte) (om : ptr * list byte) (outlen0 ret0 : Z)
    (w : world zs) (r : result zs) :
  0 <= outlen0 < gulong_max ->
  decode_message fuel src om outlen0 ret0 w = Some (Some r) ->
  Forall (fun c => fatal (ir_ret c) = false) (r_log r) ->
  let decoded := produced (r_log r) in
  r_outlen r = outlen0 + Z.of_nat (length decoded)
  /\ Z.of_nat (length (r_bytes r)) = r_outlen r
  /\ r_bytes r = decoded ++ replicate (Z.to_nat outlen0) x00
  /\ (outlen0 = 0 ->
      r_outlen r = Z.of_nat (length decoded) /\ r_bytes r = decoded)
  /\ (outlen0 <> 0 -> Z.of_nat (length decoded) < r_outlen r).
Proof.
  intros Hr Hd Hnf decoded.
  destruct (decode_message_finished _ _ _ _ _ _ _ Hd Hnf) as (st & rest & Hf & Hfin).
  pose proof (data_invariant outlen0 fuel _ _ _ _ (entry_at_head _ _ _)
                (entry_data_inv outlen0 ret0 w Hr) Hf) as Hinv.
  pose proof Hinv as (Hfl & Hok & _).
  pose proof (flatten_length _ Hok) as Hsum.
  pose proof (finish_Some outlen0 st r Hr Hinv Hfin) as (Hol & Hb & _ & Hl & _).
  rewrite Hfl, <- Hl in Hb, Hsum. fold decoded in Hb, Hsum.
  assert (Hlenb : Z.of_nat (length (r_bytes r)) = r_outlen r).
  { rewrite Hb, length_app, length_replicate, Hol. lia. }
  split; [lia |]. split; [exact Hlenb |]. split; [exact Hb |]. split.
  - intros ->. split; [lia |]. rewrite Hb. cbn [Z.to_nat replicate].
    apply app_nil_r.
  - intros Hnz. lia.
Qed.

(** C7, as amended.  Where the outer loop is left normally, the final
    copy is defined as long as the total does not wrap around, and what
    it returns is this: the result buffer is sized to [*outlen], which
    is [*outlen] on entry plus the sum of the [len] fields walked, and it
    holds the bytes of the chain in order followed by as many zero
    bytes as [*outlen] held on entry.  With [*outlen] 0 on entry, size
    and sum are equal and the buffer is the concatenation. *)
Theorem result_buffer_is_chain
    (fuel : nat) (src : list byte) (om : ptr * list byte) (outlen0 ret0 : Z)
    (w : world zs) (st : dstate zs) (rest : list byte) :
  0 <= outlen0 < gulong_max ->
  feed fuel src (entry outlen0 ret0 w) = Some (Go (st, rest)) ->
  let nodes := chain st ++ [outdata st] in
  decode_message fuel src om outlen0 ret0 w = Some (finish st)
  /\ (outlen0 + sum_len nodes < gulong_max -> is_Some (finish st))
  /\ forall r, finish st = Some r ->
       r_outlen r = outlen0 + sum_len nodes
       /\ Z.of_nat (length (r_bytes r)) = r_outlen r
       /\ r_bytes r = flatten nodes ++ replicate (Z.to_nat outlen0) x00
       /\ (outlen0 = 0 ->
           r_outlen r = sum_len nodes /\ r_bytes r = flatten nodes).
Proof.
  intros Hr Hf nodes.
  pose proof (data_invariant outlen0 fuel _ _ _ _ (entry_at_head _ _ _)
                (entry_data_inv outlen0 ret0 w Hr) Hf) as Hinv.
  split; [exact (decode_message_Go _ _ _ _ _ _ _ _ Hf) |].
  split; [intros Hlt; apply (finish_defined outlen0); [lia | exact Hinv | exact Hlt] |].
  intros r Hfin.
  pose proof Hinv as (_ & Hok & _).
  pose proof (flatten_length _ Hok) as Hsum.
  pose proof (finish_Some outlen0 st r Hr Hinv Hfin) as (Hol & Hb & _).
  fold nodes in Hol, Hb, Hsum.
  split; [exact Hol |]. split.
  { rewrite Hb, length_app, length_replicate, Hol. lia. }
  split; [exact Hb |].
  intros ->. split; [lia |]. rewrite Hb. cbn [Z.to_nat replicate]. apply app_nil_r.
Qed.

(** C8, as amended.  At every point the loops pass through, [k]
    slices having been taken from the input, no fragment holds more
    than [CHUNK] bytes and the chain is this: for each slice that has
    been drained, fragments of exactly [CHUNK] bytes followed by one
    fragment of fewer than [CHUNK] bytes; then, while slice [k] is
    drained, fragments of exactly [CHUNK] bytes followed by the
    fragment being filled, and between two slices an empty node.
    Where the outer loop is left normally, the state is the last of
    these points, the [k] slices taken are the first [k] slices of the
    input, none of them empty, and the final chain is made of their
    fragments, slice after slice; when the loop is left at the
    [break], an empty node without a block follows them. *)
Theorem chain_is_sliced
    (fuel : nat) (src : list byte) (outlen0 ret0 : Z) (w : world zs) :
  (forall k st,
     (k, st) ∈ feed_points fuel 0 src (entry outlen0 ret0 w) ->
     fragments_ok k st
     /\ Forall (fun nd => 0 <= len nd <= CHUNK) (chain st ++ [outdata st]))
  /\ forall st rest,
       feed fuel src (entry outlen0 ret0 w) = Some (Go (st, rest)) ->
       exists k,
         last (feed_points fuel 0 src (entry outlen0 ret0 w)) = Some (k, st)
         /\ rest = drop (k * Z.to_nat CHUNK) src
         /\ (k * Z.to_nat CHUNK < length src + Z.to_nat CHUNK)%nat
         /\ ((sliced_by k (chain st)
              /\ outdata st = zeroed_node (addr (outdata st)))
             \/ (sliced_by k (chain st ++ [outdata st])
                 /\ ret st = Z_STREAM_END))
         /\ Forall (fun nd => 0 <= len nd <= CHUNK) (chain st ++ [outdata st]).
Proof.
  pose proof (feed_points_inv fuel 0 src _ (entry_at_head outlen0 ret0 w)
                sliced_by_nil) as Hinv.
  split.
  - intros k st Hin. rewrite Forall_forall in Hinv.
    specialize (Hinv _ Hin). cbn [fst snd] in Hinv.
    split; [exact Hinv | apply (fragments_ok_bounded k), Hinv].
  - intros st rest Hf.
    destruct (feed_points_exit fuel 0 src _ st rest (entry_at_head outlen0 ret0 w)
                sliced_by_nil Hf) as (k & Hl & Hrest & Hk & Hshape).
    cbn [Nat.add] in Hl, Hshape. exists k.
    split; [exact Hl |]. split; [exact Hrest |]. split; [exact Hk |].
    split; [exact Hshape |].
    apply last_Some_elem_of in Hl. rewrite Forall_forall in Hinv.
    apply (fragments_ok_bounded k), (Hinv _ Hl).
Qed.

(** C2, at the empty input.  No [inflate] call is made, no [CHUNK]
    block is allocated (the head node is the only allocation), the
    result is empty and [*outlen] stays 0; but the code returned is
    decided by the value the uninitialised [ret] happens to hold:
    [Z_OK] only if that is [Z_STREAM_END], [Z_DATA_ERROR] otherwise. *)
Theorem empty_input_returns_uninitialised_ret
    (fuel : nat) (om : ptr * list byte) (ret0 : Z) (w : world zs) :
  exists r,
    decode_message (S fuel) [] om 0 ret0 w = Some (Some r)
    /\ r_log r = []
    /\ brk (hp (r_world r)) = S (brk (hp w))
    /\ r_outmsg r = None /\ r_bytes r = [] /\ r_outlen r = 0
    /\ r_code r = (if ret0 =? Z_STREAM_END then Z_OK else Z_DATA_ERROR).
Proof.
  unfold decode_message. rewrite feed_S. cbv zeta.
  rewrite take_nil, drop_nil.
  change (avail_in (stream (wd (set_input [] (entry 0 ret0 w))))) with 0.
  cbn [Z.eqb]. unfold finish. cbn.
  eexists. split; [reflexivity |]. repeat split.
Qed.

(** Whatever the input and the decompressor, every byte of the input
    buffer is [0xff] after [gst_gzdec_process_data]. *)
Lemma process_data_fills_input fuel buf ret0 (w : world zs) pd :
  gst_gzdec_process_data fuel buf ret0 w = Some (Some pd) ->
  pd_buf pd = replicate (length buf) xff.
Proof.
  unfold gst_gzdec_process_data. cbv zeta. intros Hp.
  destruct (_ <? 0); [discriminate |].
  destruct (decode_message _ _ _ _ _ _) as [[r|]|]; try discriminate.
  now injection Hp as <-.
Qed.

End Properties.

(** * Further properties of the code *)

(** ** Decoding from any position of a stream *)

Lemma agree_take_l n src c : agree src c -> agree (take n src) c.
Proof.
  revert src c. induction n as [|n IH]; intros src c Ha.
  - destruct src; exact Logic.I.
  - destruct src as [|a src]; [exact Logic.I |].
    destruct c as [|b c]; [exact Logic.I |].
    destruct Ha as [-> Ha]. split; [reflexivity | apply IH, Ha].
Qed.

Lemma agree_app_l src1 src2 c : agree (src1 ++ src2) c -> agree src1 c.
Proof.
  intros Ha. rewrite <- (take_app_length src1 src2). apply agree_take_l, Ha.
Qed.

Lemma agree_prefix c junk : agree (c ++ junk) c.
Proof.
  induction c as [|b c IH]; [apply agree_nil_r |]. split; [reflexivity | exact IH].
Qed.

Lemma agree_refl c : agree c c.
Proof. induction c as [|b c IH]; [exact I | split; [reflexivity | exact IH]]. Qed.

Lemma finish_outmsg {zs : Type} `{Inflater zs} (st : dstate zs) r :
  finish st = Some r ->
  r_outmsg r = (if r_outlen r =? 0 then None else Some (brk (hp (wd st)))).
Proof.
  unfold finish, g_malloc0. intros Hfin.
  destruct (outlen st =? 0) eqn:Hz;
    (destruct (copy_out _ _ _ _) as [[b h2]|]; [| discriminate]);
    injection Hfin as <-; cbn [r_outmsg r_outlen]; now rewrite Hz.
Qed.

Section PositionFacts.

Context {zs : Type} `{Inflater zs}.
Context {compress : list byte -> list byte}
        {expects : zs -> list byte -> list byte -> Prop}
        `{!Decodes compress expects}.

Implicit Types (st : dstate zs).

(** The outer loop from any position of a stream, on input that agrees
    with what the stream continues with: the input is used as far as the
    stream goes and the next [p] bytes of the data are stored. *)
Lemma feed_position fuel : forall src c x st,
  at_head st ->
  expects (state (stream (wd st))) c x ->
  agree src c ->
  (length src + length x < fuel)%nat ->
  exists st' rest' p,
    feed fuel src st = Some (Go (st', rest'))
    /\ produced (log st') = produced (log st) ++ take p x
    /\ expects (state (stream (wd st')))
         (drop (Nat.min (length src) (length c)) c) (drop p x)
    /\ ((length c <= length src)%nat -> src <> [] ->
        ret st' = Z_STREAM_END /\ (length x <= p)%nat)
    /\ ((length src < length c)%nat ->
        src <> [] \/ ret st <> Z_STREAM_END -> ret st' <> Z_STREAM_END).
Proof.
  induction fuel as [|fuel IH]; intros src c x st Hhead Hex Hag Hlt; [lia |].
  pose proof CHUNK_nat_pos as HN.
  rewrite feed_S. cbv zeta.
  set (inb := take (Z.to_nat CHUNK) src).
  assert (Hinb : length inb = Nat.min (Z.to_nat CHUNK) (length src)).
  { unfold inb. now rewrite length_take. }
  replace (avail_in (stream (wd (set_input inb st)))) with (Z.of_nat (length inb))
    by reflexivity.
  destruct (Z.eqb_spec (Z.of_nat (length inb)) 0) as [Hz|Hnz].
  - assert (Hsrc : src = []) by (apply length_zero_iff_nil; lia). subst src.
    exists (set_input inb st), (drop (Z.to_nat CHUNK) []), 0%nat.
    split; [reflexivity |]. cbn [set_input log wd stream state ret].
    split; [now rewrite take_0, app_nil_r |].
    split; [exact Hex |]. split; [congruence |].
    intros _ [Hne|Hne]; [congruence | exact Hne].
  - assert (Hsrc : src <> []).
    { intros ->. unfold inb in Hnz. rewrite take_nil in Hnz. simpl in Hnz. lia. }
    assert (Hsl : (0 < length src)%nat) by (destruct src; [congruence | simpl; lia]).
    destruct (drain_decodes fuel (set_input inb st) c x)
      as (st2 & p1 & Hd & Hp & Hex2 & Hge & Hlt2).
    { apply set_input_at_head, Hhead. }
    { exact Hex. }
    { apply agree_take_l, Hag. }
    { lia. }
    cbn [set_input wd stream next_in log] in Hp, Hex2, Hge, Hlt2.
    rewrite Hd.
    destruct (Nat.le_gt_cases (length c) (length inb)) as [Hci|Hic].
    + destruct (Hge Hci) as [He Hxp]. rewrite He, Z.eqb_refl.
      exists st2, (drop (Z.to_nat CHUNK) src), p1.
      split; [reflexivity |]. split; [exact Hp |]. split.
      { replace (Nat.min (length src) (length c))
          with (Nat.min (length inb) (length c)) by lia.
        exact Hex2. }
      split; [intros _ _; split; assumption |].
      intros Hsc. lia.
    + specialize (Hlt2 Hic).
      destruct (Z.eqb_spec (ret st2) Z_STREAM_END) as [|_]; [contradiction |].
      assert (Hdrop : drop (Z.to_nat CHUNK) src = drop (length inb) src).
      { destruct (Nat.le_gt_cases (Z.to_nat CHUNK) (length src)) as [Hle|Hgt].
        - f_equal. lia.
        - rewrite !drop_ge by lia. reflexivity. }
      replace (Nat.min (length inb) (length c)) with (length inb) in Hex2 by lia.
      destruct (IH (drop (Z.to_nat CHUNK) src) (drop (length inb) c) (drop p1 x)
                  (next_node st2))
        as (st' & rest' & p2 & Hf & Hp' & Hex' & Hge' & Hlt').
      { apply next_node_at_head. }
      { rewrite next_node_eq. cbn [wd stream]. exact Hex2. }
      { rewrite Hdrop. apply agree_drop, Hag. }
      { rewrite !length_drop. lia. }
      rewrite next_node_eq in Hp', Hlt'. cbn [log ret] in Hp', Hlt'.
      rewrite !length_drop in Hex', Hge', Hlt'. rewrite !drop_drop in Hex'.
      exists st', rest', (p1 + p2)%nat. split; [exact Hf |]. split.
      { rewrite Hp', Hp, <- app_assoc. f_equal. apply take_take_drop. }
      split.
      { replace (Nat.min (length src) (length c))
          with (length inb
                + Nat.min (length src - Z.to_nat CHUNK) (length c - length inb))%nat
          by lia.
        exact Hex'. }
      split.
      { intros Hcs _. destruct Hge' as [He Hxp]; [lia | |].
        - intros Hnil. apply (f_equal length) in Hnil.
          rewrite length_drop in Hnil. simpl in Hnil. lia.
        - rewrite ?length_drop in Hxp. split; [exact He | lia]. }
      { intros Hsc _. apply Hlt'; [lia |]. right. assumption. }
Qed.

(** A whole call from any position of a stream. *)
Lemma decode_position src c x om ret0 (w : world zs) fuel :
  expects (state (stream w)) c x ->
  agree src c ->
  Z.of_nat (length x) < gulong_max ->
  (length src + length x < fuel)%nat ->
  exists r p,
    decode_message fuel src om 0 ret0 w = Some (Some r)
    /\ r_bytes r = take p x
    /\ r_outlen r = Z.of_nat (length (take p x))
    /\ expects (state (stream (r_world r)))
         (drop (Nat.min (length src) (length c)) c) (drop p x)
    /\ ((length c <= length src)%nat -> src <> [] ->
        r_code r = Z_OK /\ (length x <= p)%nat)
    /\ ((length src < length c)%nat -> src <> [] -> r_code r = Z_DATA_ERROR)
    /\ (r_outlen r = 0 -> r_outmsg r = None).
Proof.
  intros Hex Hag Hlen Hfuel.
  destruct (feed_position fuel src c x (entry 0 ret0 w))
    as (st & rest & p & Hf & Hp & Hex' & Hge & Hlt); try assumption.
  { apply entry_at_head. }
  change (produced (log (entry 0 ret0 w))) with (@nil byte) in Hp. cbn [app] in Hp.
  assert (Hr : 0 <= 0 < gulong_max) by (split; [lia | reflexivity]).
  pose proof (data_invariant 0 fuel _ _ _ _ (entry_at_head _ _ _)
                (entry_data_inv 0 ret0 w Hr) Hf) as Hinv.
  pose proof Hinv as (Hfl & Hok & _).
  pose proof (flatten_length _ Hok) as Hsum. rewrite Hfl, Hp in Hsum.
  assert (Hpl : (length (take p x) <= length x)%nat) by (rewrite length_take; lia).
  destruct (finish_defined 0 st ltac:(lia) Hinv) as [r Hfin]; [lia |].
  pose proof (finish_Some 0 st r Hr Hinv Hfin) as (Hol & Hb & Hc & _ & Hs & _).
  exists r, p. split; [rewrite (decode_message_Go _ _ _ _ _ _ _ _ Hf), Hfin; reflexivity |].
  split; [rewrite Hb, Hfl, Hp; cbn [Z.to_nat replicate]; apply app_nil_r |].
  split; [rewrite Hol; lia |].
  split; [rewrite Hs; exact Hex' |].
  split; [| split].
  - intros Hcs Hne. destruct (Hge Hcs Hne) as [He Hxp].
    split; [rewrite Hc, He; reflexivity | exact Hxp].
  - intros Hsc Hne. rewrite Hc.
    destruct (Z.eqb_spec (ret st) Z_STREAM_END) as [He|_]; [| reflexivity].
    exfalso. apply (Hlt Hsc); [left; exact Hne | exact He].
  - intros Hz. rewrite (finish_outmsg _ _ Hfin), Hz. reflexivity.
Qed.

(** The same through [gst_gzdec_chain], for a buffer whose size is a
    [gint]: one buffer is pushed, holding the next bytes of the data. *)
Lemma chain_position (push : out_buffer -> Z) src c x ret0 (el : element zs) fuel :
  Z.of_nat (length src) < gint_max ->
  expects (state (stream (el_world el))) c x ->
  agree src c ->
  Z.of_nat (length x) < gulong_max ->
  (length src + length x < fuel)%nat ->
  exists ob el' p,
    gst_gzdec_chain push fuel src ret0 el = Some (Some (push ob, el'))
    /\ el_pushed el' = el_pushed el ++ [ob]
    /\ ob_bytes ob = take p x
    /\ ob_size ob = Z.of_nat (length (take p x))
    /\ expects (state (stream (el_world el')))
         (drop (Nat.min (length src) (length c)) c) (drop p x)
    /\ ((length c <= length src)%nat -> src <> [] -> (length x <= p)%nat)
    /\ (ob_size ob = 0 -> ob_data ob = None).
Proof.
  intros Hint Hex Hag Hlen Hfuel.
  destruct (decode_position src c x (None, []) ret0 (el_world el) fuel Hex Hag Hlen Hfuel)
    as (r & p & Hd & Hb & Hol & Hex' & Hge & _ & Hnull).
  unfold gst_gzdec_chain. rewrite process_data_in_range by exact Hint. rewrite Hd.
  cbn [pd_decodedmsg pd_outbuf pd_decodedmsglen pd_world].
  eexists _, _, p. split; [reflexivity |].
  cbn [el_pushed el_world ob_bytes ob_size ob_data].
  repeat split; try assumption.
  intros Hcs Hne. apply (Hge Hcs Hne).
Qed.

End PositionFacts.

(** ** A stream in more than one call *)

Section Sessions.

Context {zs : Type} `{Inflater zs}.

(** X1.  A truncated stream.  For a decompressor that decodes the
    format [compress] writes and a session [init_decoder] just opened:
    when the input is the first [n] bytes of [compress x], at least one
    and not all of them, [decode_message] returns [Z_DATA_ERROR] from
    line 340, and the result buffer holds the first [p] bytes of [x],
    the part of the data the input got to, with [*outlen] its length. *)
Theorem truncated_stream_is_data_error
    (compress : list byte -> list byte)
    (expects : zs -> list byte -> list byte -> Prop)
    (Hdec : Decodes compress expects)
    (x : list byte) (n : nat) (om : ptr * list byte) (ret0 : Z) (h : heap)
    (fuel : nat) :
  (0 < n < length (compress x))%nat ->
  Z.of_nat (length x) < gulong_max ->
  (n + length x < fuel)%nat ->
  exists r p,
    decode_message fuel (take n (compress x)) om 0 ret0 (snd (init_decoder h))
    = Some (Some r)
    /\ r_code r = Z_DATA_ERROR
    /\ r_bytes r = take p x
    /\ r_outlen r = Z.of_nat (length (r_bytes r)).
Proof.
  intros Hn Hlen Hfuel.
  destruct init_expects as (s & Hinit & Hex).
  unfold init_decoder. rewrite Hinit. cbn [fst snd].
  assert (Hl : length (take n (compress x)) = n) by (rewrite length_take; lia).
  destruct (decode_position (take n (compress x)) (compress x) x om ret0
              {| stream := ZStream [] 0 s; hp := h |} fuel)
    as (r & p & Hd & Hb & Hol & _ & _ & Hlt & _).
  - apply Hex.
  - apply agree_take_l, agree_refl.
  - exact Hlen.
  - lia.
  - exists r, p. split; [exact Hd |]. split; [| split].
    + apply Hlt; [lia |]. intros Hnil. rewrite Hnil in Hl. simpl in Hl. lia.
    + exact Hb.
    + rewrite Hb. exact Hol.
Qed.

Variable gst_pad_push : out_buffer -> Z.

(** X2.  A stream that arrives in two buffers.  The bytes of
    [compress x], followed by any bytes [junk], fewer than [gint_max]
    in all, are cut anywhere into two non-empty buffers and handed to
    [gst_gzdec_chain] one after the other, on the session
    [init_decoder] opened.  Each call pushes one
    buffer on the source pad and returns what [gst_pad_push] returned
    for it; the two buffers pushed hold, one after the other, exactly
    [x], and their sizes add up to its length. *)
Theorem stream_in_two_buffers
    (compress : list byte -> list byte)
    (expects : zs -> list byte -> list byte -> Prop)
    (Hdec : Decodes compress expects)
    (x junk b1 b2 : list byte) (ret1 ret2 : Z) (h : heap) (fuel : nat) :
  b1 ++ b2 = compress x ++ junk ->
  b1 <> [] -> b2 <> [] ->
  Z.of_nat (length (compress x ++ junk)) < gint_max ->
  Z.of_nat (length x) < gulong_max ->
  (length (compress x ++ junk) + length x < fuel)%nat ->
  exists o1 o2 el1 el2,
    gst_gzdec_chain gst_pad_push fuel b1 ret1
      {| el_world := snd (init_decoder h); el_pushed := [] |}
    = Some (Some (gst_pad_push o1, el1))
    /\ gst_gzdec_chain gst_pad_push fuel b2 ret2 el1
       = Some (Some (gst_pad_push o2, el2))
    /\ el_pushed el2 = [o1; o2]
    /\ pushed_bytes (el_pushed el2) = x
    /\ ob_size o1 + ob_size o2 = Z.of_nat (length x).
Proof.
  intros Hcut Hb1 Hb2 Hint Hlen Hfuel.
  destruct init_expects as (s & Hinit & Hex).
  unfold init_decoder. rewrite Hinit. cbn [fst snd].
  set (c := compress x) in *.
  assert (Hlcut : (length b1 + length b2 = length (c ++ junk))%nat)
    by (rewrite <- Hcut, length_app; reflexivity).
  destruct (chain_position gst_pad_push b1 c x ret1
              {| el_world := {| stream := ZStream [] 0 s; hp := h |};
                 el_pushed := [] |} fuel)
    as (o1 & el1 & p & Hc1 & Hp1 & Hby1 & Hsz1 & Hex1 & Hge1 & _).
  { lia. }
  { apply Hex. }
  { apply (agree_app_l b1 b2). rewrite Hcut. apply agree_prefix. }
  { exact Hlen. }
  { lia. }
  cbn [el_pushed app] in Hp1.
  set (k := Nat.min (length b1) (length c)) in *.
  assert (Hb2eq : b2 = drop (length b1) (c ++ junk)).
  { rewrite <- Hcut. now rewrite drop_app_length. }
  assert (Hag2 : agree b2 (drop k c)).
  { destruct (Nat.le_gt_cases (length c) (length b1)) as [Hle|Hgt].
    - rewrite drop_ge by (unfold k; lia). apply agree_nil_r.
    - replace k with (length b1) by (unfold k; lia).
      rewrite Hb2eq, drop_app_le by lia. apply agree_prefix. }
  assert (Hl2 : (length (drop k c) <= length b2)%nat).
  { rewrite length_drop. rewrite length_app in Hlcut. unfold k. lia. }
  destruct (chain_position gst_pad_push b2 (drop k c) (drop p x) ret2 el1 fuel)
    as (o2 & el2 & p' & Hc2 & Hp2 & Hby2 & Hsz2 & _ & Hge2 & _).
  { lia. }
  { exact Hex1. }
  { exact Hag2. }
  { rewrite length_drop. lia. }
  { rewrite length_drop. lia. }
  specialize (Hge2 Hl2 Hb2).
  rewrite take_ge in Hby2, Hsz2 by exact Hge2.
  exists o1, o2, el1, el2. split; [exact Hc1 |]. split; [exact Hc2 |].
  assert (Hpush : el_pushed el2 = [o1; o2]) by (rewrite Hp2, Hp1; reflexivity).
  split; [exact Hpush |]. split.
  - rewrite Hpush. unfold pushed_bytes. cbn [map concat].
    rewrite Hby1, Hby2, app_nil_r. apply take_drop.
  - rewrite Hsz1, Hsz2, <- Nat2Z.inj_add, <- length_app, take_drop. reflexivity.
Qed.

(** X3.  After the end of the stream.  The session is opened once, by
    [init_decoder], and no call resets it.  So once a buffer has
    brought the stream [compress x] to its end, any further non-empty
    buffer, whatever it holds, decodes to nothing: the buffer the call
    pushes is built from the pointer NULL and the size 0.  Both buffers
    hold fewer than [gint_max] bytes. *)
Theorem buffer_after_stream_end_is_swallowed
    (compress : list byte -> list byte)
    (expects : zs -> list byte -> list byte -> Prop)
    (Hdec : Decodes compress expects)
    (x junk buf : list byte) (ret1 ret2 : Z) (h : heap) (fuel : nat) :
  buf <> [] ->
  Z.of_nat (length (compress x ++ junk)) < gint_max ->
  Z.of_nat (length buf) < gint_max ->
  Z.of_nat (length x) < gulong_max ->
  (length (compress x ++ junk) + length x < fuel)%nat ->
  (length buf < fuel)%nat ->
  exists o1 o2 el1 el2,
    gst_gzdec_chain gst_pad_push fuel (compress x ++ junk) ret1
      {| el_world := snd (init_decoder h); el_pushed := [] |}
    = Some (Some (gst_pad_push o1, el1))
    /\ ob_bytes o1 = x
    /\ gst_gzdec_chain gst_pad_push fuel buf ret2 el1
       = Some (Some (gst_pad_push o2, el2))
    /\ ob_data o2 = None /\ ob_bytes o2 = [] /\ ob_size o2 = 0.
Proof.
  intros Hbuf Hint1 Hint2 Hlen Hfuel Hfuel2.
  destruct init_expects as (s & Hinit & Hex).
  unfold init_decoder. rewrite Hinit. cbn [fst snd].
  set (c := compress x) in *.
  destruct (chain_position gst_pad_push (c ++ junk) c x ret1
              {| el_world := {| stream := ZStream [] 0 s; hp := h |};
                 el_pushed := [] |} fuel)
    as (o1 & el1 & p & Hc1 & _ & Hby1 & _ & Hex1 & Hge1 & _).
  { exact Hint1. }
  { apply Hex. }
  { apply agree_prefix. }
  { exact Hlen. }
  { lia. }
  assert (Hp : (length x <= p)%nat).
  { apply Hge1; [rewrite length_app; lia |].
    intros Hnil. apply app_eq_nil in Hnil as [Hnil _].
    unfold c in Hnil. exact (compress_nonempty x Hnil). }
  rewrite take_ge in Hby1 by exact Hp.
  rewrite (drop_ge x p) in Hex1 by exact Hp.
  rewrite drop_ge in Hex1 by (rewrite length_app; lia).
  destruct (chain_position gst_pad_push buf [] [] ret2 el1 fuel)
    as (o2 & el2 & p' & Hc2 & _ & Hby2 & Hsz2 & _ & _ & Hnull).
  { exact Hint2. }
  { exact Hex1. }
  { apply agree_nil_r. }
  { cbn [length]. apply gulong_max_pos. }
  { cbn [length]. lia. }
  rewrite take_nil in Hby2, Hsz2. cbn [length] in Hsz2.
  exists o1, o2, el1, el2. repeat split; try assumption.
  apply Hnull, Hsz2.
Qed.

End Sessions.

(** ** What a failed call leaves behind *)

Section FatalFacts.

Context {zs : Type} `{Inflater zs}.

(** At a return from line 304 [*outlen] counts the bytes of the calls
    before the fatal one. *)
Lemma fatal_exit_outlen outlen0 fuel rest (st : dstate zs) c st' rest' :
  at_head st -> data_inv outlen0 st ->
  feed fuel rest st = Some (Return c (st', rest')) ->
  exists lg r,
    log st' = lg ++ [r]
    /\ outlen st'
       = (outlen0 + Z.of_nat (length (produced lg))) mod gulong_max.
Proof.
  intros Hhead HI Hfeed.
  pose proof (loops_rule (fun st => at_head st /\ data_inv outlen0 st)
                (data_inv outlen0)
                (fun _ st2 => exists lg r,
                   log st2 = lg ++ [r]
                   /\ outlen st2
                      = (outlen0 + Z.of_nat (length (produced lg))) mod gulong_max))
    as Hrule.
  specialize (Hrule (fun st inb HI => HI)).
  specialize (Hrule (fun st st2 HI Hgo => data_inv_step _ _ _ (proj1 HI) (proj2 HI) Hgo)).
  specialize (Hrule (fun st2 HP => conj (next_node_at_head st2) (data_inv_next _ _ HP))).
  assert (Hret : forall (s1 : dstate zs) c1 s2,
             at_head s1 /\ data_inv outlen0 s1 -> drain_step s1 = Return c1 s2 ->
             exists lg r,
               log s2 = lg ++ [r]
               /\ outlen s2
                  = (outlen0 + Z.of_nat (length (produced lg))) mod gulong_max).
  { intros s1 c1 s2 [_ (Hfl & Hok & Hlen)]
      (_ & _ & _ & _ & Hl & _ & Hol & _)%drain_step_Return.
    exists (log s1), (call_of s1). split; [exact Hl |].
    rewrite Hol, Hlen, <- Hfl. f_equal. f_equal. symmetry.
    apply flatten_length, Hok. }
  specialize (Hrule Hret fuel rest st (conj Hhead HI)).
  rewrite Hfeed in Hrule. exact Hrule.
Qed.

Variable gst_pad_push : out_buffer -> Z.

(** X4.  A failed decode is not reported downstream.  For a buffer of
    fewer than [gint_max] bytes, which [decode_message] is given
    whole: when an [inflate] call of the run returned a fatal code,
    [gst_gzdec_chain] still pushes a buffer and returns what [gst_pad_push] returned for
    it, not [GST_FLOW_ERROR]: [gst_gzdec_process_data] does not look at
    the code [decode_message] returned.  The buffer is built from the
    pointer NULL and, as its size, the number of bytes the calls before
    the fatal one had stored: [decode_message] had added them to
    [*outlen] before it returned without copying them. *)
Theorem chain_pushes_after_fatal_code
    (fuel : nat) (buf : list byte) (ret0 : Z) (el : element zs)
    (r : result zs) :
  Z.of_nat (length buf) < gint_max ->
  decode_message fuel buf (None, []) 0 ret0 (el_world el) = Some (Some r) ->
  Exists (fun c => fatal (ir_ret c) = true) (r_log r) ->
  exists earlier c ob,
    r_log r = earlier ++ [c]
    /\ fatal (ir_ret c) = true
    /\ gst_gzdec_chain gst_pad_push fuel buf ret0 el
       = Some (Some (gst_pad_push ob,
                     {| el_world := r_world r;
                        el_pushed := el_pushed el ++ [ob] |}))
    /\ ob_data ob = None /\ ob_bytes ob = []
    /\ ob_size ob = Z.of_nat (length (produced earlier)) mod gulong_max.
Proof.
  intros Hint Hd Hfat.
  unfold gst_gzdec_chain. rewrite process_data_in_range by exact Hint. rewrite Hd.
  cbn [pd_decodedmsg pd_outbuf pd_decodedmsglen pd_world].
  unfold decode_message in Hd.
  pose proof (log_invariant ret0 fuel buf _ (entry_log_inv 0 ret0 (el_world el))) as Hlog.
  assert (Hr : 0 <= 0 < gulong_max) by (split; [lia | reflexivity]).
  destruct (feed fuel buf _) as [[[st rest]|c1 [st rest]|]|] eqn:Hf; try discriminate.
  - exfalso. injection Hd as Hd. destruct Hlog as [_ Hnf].
    unfold finish in Hd. destruct (g_malloc0 _ _) as [m h1].
    destruct (copy_out _ _ _ _) as [[b h2]|]; [| discriminate].
    injection Hd as <-. cbn [r_log] in Hfat.
    apply Exists_exists in Hfat as (c & Hc & Hfc).
    rewrite Forall_forall in Hnf. specialize (Hnf c Hc). congruence.
  - destruct (fatal_exit_outlen 0 fuel buf _ c1 st rest (entry_at_head _ _ _)
                (entry_data_inv 0 ret0 (el_world el) Hr) Hf) as (lg & c & Hl & Hol).
    destruct Hlog as (lg' & c' & Hl' & _ & Hfc & _).
    rewrite Hl in Hl'. apply app_inj_tail in Hl' as [_ <-].
    injection Hd as <-. cbn [r_log r_outmsg r_bytes r_outlen r_world fst snd].
    eexists lg, c, _. split; [exact Hl |]. split; [exact Hfc |].
    split; [reflexivity |]. cbn [ob_data ob_bytes ob_size].
    repeat split. rewrite Hol. reflexivity.
Qed.

End FatalFacts.

(** ** The memory a run takes *)

Lemma block_bytes_snoc l nd :
  block_bytes (l ++ [nd]) = block_bytes l + Z.of_nat (length (dbytes nd)).
Proof.
  unfold block_bytes. induction l as [|a l IH]; cbn [app foldr]; lia.
Qed.

Section BlockFacts.

Context {zs : Type} `{Inflater zs}.

Lemma blocks_step (st st2 : dstate zs) :
  blocks_head st -> drain_step st = Go st2 -> blocks_inv st2.
Proof.
  intros (Hhead & Hb & Hn) Hgo.
  pose proof (drain_step_Go _ _ Hgo) as (_ & _ & _ & Hch & Hl & _).
  pose proof (drain_step_head _ _ Hhead Hgo) as (Hle & _ & Hod & _).
  unfold blocks_inv. rewrite Hch, Hl, block_bytes_snoc, !length_app, Hod, Hb, Hn.
  cbn [dbytes length]. rewrite length_app, length_replicate.
  pose proof CHUNK_nat. split; lia.
Qed.

Lemma blocks_return (st : dstate zs) c st2 :
  blocks_head st -> drain_step st = Return c st2 -> blocks_inv st2.
Proof.
  intros (Hhead & Hb & Hn) Hret.
  destruct (drain_step_cases st) as [[_ Hs] | [(_ & _ & Hs) | (_ & b & _ & Hs)]];
    rewrite Hs in Hret; try discriminate.
  injection Hret as _ <-. unfold blocks_inv. cbn [chain outdata log].
  rewrite block_bytes_snoc, !length_app, Hb, Hn. cbn [dbytes length].
  rewrite length_replicate. pose proof CHUNK_nat. split; lia.
Qed.

Lemma blocks_next (st : dstate zs) : blocks_inv st -> blocks_head (next_node st).
Proof.
  intros [Hb Hn]. split; [apply next_node_at_head |].
  rewrite next_node_eq. cbn [chain log]. split; assumption.
Qed.

(** X5.  One block for every call.  Wherever the loops are left, the
    chain holds one block of [CHUNK] bytes for every [inflate] call the
    run made, however few bytes the call stored, and one node for every
    call; where the loops are left at the [break], one more node, which
    has no block. *)
Theorem one_block_per_inflate_call
    (fuel : nat) (src : list byte) (outlen0 ret0 : Z) (w : world zs) :
  match feed fuel src (entry outlen0 ret0 w) with
  | Some (Go (st, _)) =>
    block_bytes (chain st ++ [outdata st])
    = CHUNK * Z.of_nat (length (log st))
    /\ ((length (chain st ++ [outdata st]) = S (length (log st))
         /\ data (outdata st) = None)
        \/ (length (chain st ++ [outdata st]) = length (log st)
            /\ ret st = Z_STREAM_END))
  | Some (Return _ (st, _)) =>
    block_bytes (chain st ++ [outdata st])
    = CHUNK * Z.of_nat (length (log st))
    /\ length (chain st ++ [outdata st]) = length (log st)
  | _ => True
  end.
Proof.
  pose proof (loops_rule blocks_head blocks_inv (fun _ st => blocks_inv st)) as Hrule.
  specialize (Hrule (fun st inb HI => HI) blocks_step blocks_next blocks_return
                fuel src (entry outlen0 ret0 w)).
  assert (H0 : blocks_head (entry outlen0 ret0 w)).
  { split; [apply entry_at_head |]. split; reflexivity. }
  specialize (Hrule H0).
  destruct (feed fuel src _) as [[[st rest]|c [st rest]|]|];
    try exact Logic.I; try exact Hrule.
  destruct Hrule as [[(Hhead & Hb & Hn) _]|[[Hb Hn] He]].
  - rewrite block_bytes_snoc, length_app, Hhead, Hb, Hn. cbn [zeroed_node dbytes data length].
    split; [lia |]. left. split; [lia | reflexivity].
  - split; [exact Hb |]. right. split; assumption.
Qed.

End BlockFacts.

(** ** The heap around a call *)

Section KeepFacts.

Context {zs : Type} `{Inflater zs}.

Lemma heap_inv_wf h0 (st : dstate zs) :
  heap_wf h0 -> heap_inv h0 st ->
  heap_wf (hp (wd st)) /\ (brk h0 < brk (hp (wd st)))%nat.
Proof.
  intros Hwf (Hlive & Hrange & Hmem).
  pose proof (Hrange _ Hmem) as Hb. split; [| lia].
  intros b Hbl. rewrite Hlive in Hbl. apply elem_of_union in Hbl as [Hbl|Hbl].
  - apply Hwf in Hbl. lia.
  - apply Hrange in Hbl. lia.
Qed.

Lemma g_malloc0_wf n h :
  heap_wf h ->
  heap_wf (snd (g_malloc0 n h)) /\ (brk h <= brk (snd (g_malloc0 n h)))%nat.
Proof.
  intros Hwf. unfold g_malloc0. destruct (n =? 0); cbn [snd brk]; [split; [exact Hwf | lia] |].
  split; [| lia]. intros b Hb. cbn [live brk] in *.
  apply elem_of_union in Hb as [Hb|Hb].
  - apply elem_of_singleton in Hb as ->. lia.
  - apply Hwf in Hb. lia.
Qed.

(** X8.  The caller's blocks.  Whatever way [decode_message] returns,
    through the final copy or at line 304, every block that was
    allocated when it was called is still allocated: the call frees
    nothing but nodes and blocks of its own chain.  The allocator has
    moved on, and has handed out every block that is in use. *)
Theorem call_keeps_caller_blocks
    (fuel : nat) (src : list byte) (om : ptr * list byte) (outlen0 ret0 : Z)
    (w : world zs) (r : result zs) :
  heap_wf (hp w) ->
  decode_message fuel src om outlen0 ret0 w = Some (Some r) ->
  live (hp w) ⊆ live (hp (r_world r))
  /\ heap_wf (hp (r_world r))
  /\ (brk (hp w) < brk (hp (r_world r)))%nat.
Proof.
  intros Hwf Hd. unfold decode_message in Hd.
  pose proof (heap_invariant (hp w) fuel src _ (entry_at_head outlen0 ret0 w)
                (entry_heap_inv outlen0 ret0 w)) as Hinv.
  destruct (feed fuel src _) as [[[st rest]|c [st rest]|]|]; try discriminate.
  - injection Hd as Hfin.
    pose proof (finish_heap _ _ _ Hwf Hinv Hfin) as Hlive.
    destruct (heap_inv_wf _ _ Hwf Hinv) as [Hwf1 Hbrk].
    destruct (g_malloc0_wf (outlen st) _ Hwf1) as [Hwf2 Hbrk2].
    unfold finish in Hfin.
    destruct (g_malloc0 (outlen st) (hp (wd st))) as [m h1].
    destruct (copy_out _ _ 0 h1) as [[b h2]|] eqn:Hc; [| discriminate].
    injection Hfin as <-. cbn [r_world hp r_outmsg snd] in *.
    apply copy_out_heap in Hc as ->.
    split; [rewrite Hlive; set_solver |]. split.
    + intros b' Hb'. rewrite free_nodes_live in Hb'. rewrite free_nodes_brk.
      apply Hwf2. set_solver.
    + rewrite free_nodes_brk. lia.
  - injection Hd as <-. cbn [r_world].
    destruct (heap_inv_wf _ _ Hwf Hinv) as [Hwf1 Hbrk].
    destruct Hinv as (Hlive & _).
    split; [rewrite Hlive; set_solver |]. split; assumption.
Qed.

End KeepFacts.

(** ** The code a call returns *)

Section CodeFacts.

Context {zs : Type} `{Inflater zs}.

Lemma fatal_code_cases c :
  fatal c = true ->
  fatal_code c = Z_DATA_ERROR \/ fatal_code c = Z_MEM_ERROR
  \/ fatal_code c = Z_STREAM_ERROR.
Proof.
  unfold fatal, fatal_code. intros Hf.
  destruct (Z.eqb_spec c Z_NEED_DICT) as [_|_]; [left; reflexivity |].
  destruct (Z.eqb_spec c Z_DATA_ERROR) as [E|_]; [left; exact E |].
  destruct (Z.eqb_spec c Z_MEM_ERROR) as [E|_]; [right; left; exact E |].
  destruct (Z.eqb_spec c Z_STREAM_ERROR) as [E|_]; [right; right; exact E |].
  discriminate.
Qed.

(** X9.  The codes a call can return.  Whatever the input and the
    decompressor, [decode_message] returns one of [Z_OK],
    [Z_DATA_ERROR], [Z_MEM_ERROR] and [Z_STREAM_ERROR]: a
    [Z_NEED_DICT] of [inflate] comes out as [Z_DATA_ERROR], and so
    does every other code that is not [Z_STREAM_END] when the input
    ends, [Z_BUF_ERROR] among them. *)
Theorem return_code_is_one_of_four
    (fuel : nat) (src : list byte) (om : ptr * list byte) (outlen0 ret0 : Z)
    (w : world zs) (r : result zs) :
  decode_message fuel src om outlen0 ret0 w = Some (Some r) ->
  r_code r = Z_OK \/ r_code r = Z_DATA_ERROR \/ r_code r = Z_MEM_ERROR
  \/ r_code r = Z_STREAM_ERROR.
Proof.
  intros Hd. unfold decode_message in Hd.
  pose proof (log_invariant ret0 fuel src _ (entry_log_inv outlen0 ret0 w)) as Hlog.
  destruct (feed fuel src _) as [[[st rest]|c [st rest]|]|]; try discriminate.
  - injection Hd as Hd. unfold finish in Hd. destruct (g_malloc0 _ _) as [m h1].
    destruct (copy_out _ _ _ _) as [[b h2]|]; [| discriminate].
    injection Hd as <-. cbn [r_code].
    destruct (ret st =? Z_STREAM_END); [left | right; left]; reflexivity.
  - injection Hd as <-. cbn [r_code].
    destruct Hlog as (lg & c0 & _ & _ & Hfat & -> & _).
    right. apply fatal_code_cases, Hfat.
Qed.

(** X10.  When a call succeeds.  [decode_message] returns [Z_OK]
    exactly when the last [inflate] call it made returned
    [Z_STREAM_END]; when it made no call, the value the uninitialised
    [ret] held stands in for that code. *)
Theorem ok_iff_last_call_ended_stream
    (fuel : nat) (src : list byte) (om : ptr * list byte) (outlen0 ret0 : Z)
    (w : world zs) (r : result zs) :
  decode_message fuel src om outlen0 ret0 w = Some (Some r) ->
  r_code r = Z_OK <-> default ret0 (last (codes (r_log r))) = Z_STREAM_END.
Proof.
  intros Hd. unfold decode_message in Hd.
  pose proof (log_invariant ret0 fuel src _ (entry_log_inv outlen0 ret0 w)) as Hlog.
  destruct (feed fuel src _) as [[[st rest]|c [st rest]|]|]; try discriminate.
  - injection Hd as Hd. unfold finish in Hd. destruct (g_malloc0 _ _) as [m h1].
    destruct (copy_out _ _ _ _) as [[b h2]|]; [| discriminate].
    injection Hd as <-. cbn [r_code r_log]. destruct Hlog as [Hret _].
    rewrite <- Hret.
    destruct (Z.eqb_spec (ret st) Z_STREAM_END) as [He|Hne]; split;
      try discriminate; try contradiction; intros _; [exact He | reflexivity].
  - injection Hd as <-. cbn [r_code r_log].
    destruct Hlog as (lg & c0 & Hl & _ & Hfat & -> & _).
    rewrite Hl, log_inv_snoc. split.
    + intros Hc. destruct (fatal_code_cases _ Hfat) as [Hk|[Hk|Hk]];
        rewrite Hk in Hc; discriminate.
    + intros He. rewrite He in Hfat. discriminate.
Qed.

End CodeFacts.

(** * The properties on concrete bytes

    Runs of the program with the toy decompressor. *)

Import Toy ToySpec ToyFacts.



(** The stream of [AB] followed by 300000 bytes [0xff], more than a
    slice. *)
Lemma trailing_bytes_ignored_witness :
  Z.of_nat (length [x41; x42]) < gulong_max
  /\ (length (compress [x41; x42]) + length [x41; x42] < 10)%nat
  /\ exists st m r,
    feed 10 (compress [x41; x42] ++ replicate (Z.to_nat 300000) xff)
      (entry 0 7 (snd (init_decoder heap0)))
    = Some (Go (st, drop (m * Z.to_nat CHUNK)
                      (compress [x41; x42] ++ replicate (Z.to_nat 300000) xff)))
    /\ (length (compress [x41; x42]) <= m * Z.to_nat CHUNK
        < length (compress [x41; x42]) + Z.to_nat CHUNK)%nat
    /\ ret st = Z_STREAM_END
    /\ decode_message 10 (compress [x41; x42] ++ replicate (Z.to_nat 300000) xff)
         (None, []) 0 7 (snd (init_decoder heap0))
       = Some (Some r)
    /\ r_code r = Z_OK
    /\ r_bytes r = [x41; x42]
    /\ r_outlen r = Z.of_nat (length [x41; x42]).
Proof.
  split; [reflexivity |]. split; [simpl; lia |].
  apply (trailing_bytes_ignored compress expects toy_decodes);
    [reflexivity | simpl; lia].
Defined.

(** A stream cut after the tag of its second item. *)
Lemma incomplete_input_reported_witness :
  0 <= 0 < gulong_max
  /\ ([x01; x41; x01] <> [] \/ 7 <> Z_STREAM_END)
  /\ (exists fuel o,
        decode_message fuel [x01; x41; x01] (None, []) 0 7 world0 = Some o
        /\ (o = None ->
            exists st rest,
              feed fuel [x01; x41; x01] (entry 0 7 world0) = Some (Go (st, rest))
              /\ gulong_max <= 0 + sum_len (chain st ++ [outdata st])))
  /\ forall fuel r,
       decode_message fuel [x01; x41; x01] (None, []) 0 7 world0 = Some (Some r) ->
       Z_STREAM_END ∉ codes (r_log r) ->
       r_code r <> Z_OK
       /\ (Forall (fun c => fatal (ir_ret c) = false) (r_log r) ->
           r_code r = Z_DATA_ERROR).
Proof.
  assert (Hr : 0 <= 0 < gulong_max) by (split; [discriminate | reflexivity]).
  split; [exact Hr |]. split; [left; discriminate |].
  apply (incomplete_input_reported potential toy_productive);
    [exact Hr | left; discriminate].
Defined.

(** A stream whose second item asks for a dictionary: the byte the
    same call had stored is not copied, and the items after it are never
    read. *)
Lemma fatal_code_aborts_witness :
  exists r c,
    decode_message 10 [x01; x41; x02; x01; x42; x00] (None, []) 0 7 world0
    = Some (Some r)
    /\ c ∈ r_log r
    /\ fatal (ir_ret c) = true
    /\ (exists earlier,
          r_log r = earlier ++ [c]
          /\ Forall (fun c' => fatal (ir_ret c') = false) earlier)
    /\ r_code r = (if ir_ret c =? Z_NEED_DICT then Z_DATA_ERROR else ir_ret c)
    /\ state (stream (r_world r)) = inflateEnd (ir_state c)
    /\ r_outmsg r = None /\ r_bytes r = [].
Proof.
  assert (E : exists r,
             decode_message 10 [x01; x41; x02; x01; x42; x00] (None, []) 0 7 world0
             = Some (Some r)
             /\ r_log r = [InflateResult Z_NEED_DICT 3 [x41] Tag])
    by (eexists; split; [vm_compute; reflexivity | reflexivity]).
  destruct E as (r & E & Hl).
  assert (Hin : InflateResult Z_NEED_DICT 3 [x41] Tag ∈ r_log r)
    by (rewrite Hl; apply list_elem_of_here).
  exists r, (InflateResult Z_NEED_DICT 3 [x41] Tag).
  split; [exact E |]. split; [exact Hin |]. split; [reflexivity |].
  exact (fatal_code_aborts 10 _ (None, []) 0 7 world0 r _ E Hin eq_refl).
Defined.

(** The stream of [AB] decoded with 3 in [*outlen] on entry. *)
Lemma outlen_accumulates_witness :
  0 <= 3 < gulong_max
  /\ exists r,
       decode_message 10 (compress [x41; x42]) (None, []) 3 7 world0
       = Some (Some r)
       /\ Forall (fun c => fatal (ir_ret c) = false) (r_log r)
       /\ r_outlen r = 3 + Z.of_nat (length (produced (r_log r)))
       /\ Z.of_nat (length (r_bytes r)) = r_outlen r
       /\ r_bytes r = produced (r_log r) ++ replicate (Z.to_nat 3) x00
       /\ (3 = 0 ->
           r_outlen r = Z.of_nat (length (produced (r_log r)))
           /\ r_bytes r = produced (r_log r))
       /\ (3 <> 0 -> Z.of_nat (length (produced (r_log r))) < r_outlen r).
Proof.
  assert (Hr : 0 <= 3 < gulong_max) by (split; [discriminate | reflexivity]).
  split; [exact Hr |].
  assert (E : exists r,
             decode_message 10 (compress [x41; x42]) (None, []) 3 7 world0
             = Some (Some r)
             /\ Forall (fun c => fatal (ir_ret c) = false) (r_log r))
    by (eexists; split; [vm_compute; reflexivity | repeat constructor]).
  destruct E as (r & E & Hnf).
  exists r. split; [exact E |]. split; [exact Hnf |].
  exact (outlen_accumulates 10 _ (None, []) 3 7 world0 r Hr E Hnf).
Defined.

(** C7.  With 3 in [*outlen] on entry the call succeeds, and the
    result is sized 5 while the fragments walked hold 2 bytes; it holds
    the two decoded bytes and three more. *)
Lemma result_size_is_not_sum_of_lengths :
  match feed 10 (compress [x41; x42]) (entry 3 7 world0) with
  | Some (Go (st, _)) =>
    match finish st with
    | Some r =>
      decode_message 10 (compress [x41; x42]) (None, []) 3 7 world0
      = Some (Some r)
      /\ r_code r = Z_OK
      /\ r_outlen r = 5
      /\ sum_len (chain st ++ [outdata st]) = 2
      /\ r_outlen r <> sum_len (chain st ++ [outdata st])
      /\ r_bytes r = [x41; x42; x00; x00; x00]
      /\ flatten (chain st ++ [outdata st]) = [x41; x42]
      /\ r_bytes r <> flatten (chain st ++ [outdata st])
    | None => False
    end
  | _ => False
  end.
Proof. vm_compute. repeat split; discriminate. Qed.

(** The stream of [AB] decoded with 0 in [*outlen] on entry. *)
Lemma result_buffer_is_chain_witness :
  0 <= 0 < gulong_max
  /\ match feed 10 (compress [x41; x42]) (entry 0 7 world0) with
     | Some (Go (st, rest)) =>
       let nodes := chain st ++ [outdata st] in
       decode_message 10 (compress [x41; x42]) (None, []) 0 7 world0
       = Some (finish st)
       /\ (0 + sum_len nodes < gulong_max -> is_Some (finish st))
       /\ forall r, finish st = Some r ->
            r_outlen r = 0 + sum_len nodes
            /\ Z.of_nat (length (r_bytes r)) = r_outlen r
            /\ r_bytes r = flatten nodes ++ replicate (Z.to_nat 0) x00
            /\ (0 = 0 -> r_outlen r = sum_len nodes /\ r_bytes r = flatten nodes)
     | _ => False
     end.
Proof.
  assert (Hr : 0 <= 0 < gulong_max) by (split; [discriminate | reflexivity]).
  split; [exact Hr |].
  assert (Hgo : left_normally (feed 10 (compress [x41; x42]) (entry 0 7 world0)) = true)
    by (vm_compute; reflexivity).
  destruct (feed 10 (compress [x41; x42]) (entry 0 7 world0))
    as [[[st rest]|c p|]|] eqn:E; try discriminate Hgo.
  exact (result_buffer_is_chain 10 _ (None, []) 0 7 world0 st rest Hr E).
Defined.

(** C8.  A stream three bytes longer than [CHUNK] decodes with success
    in two slices.  The fragment of the first slice holds half of
    [CHUNK], and it is not the last: the byte of the second slice has a
    fragment of its own. *)
Lemma fragment_before_last_not_full :
  match feed 10 (compress (replicate (Z.to_nat 131073) x41)) (entry 0 7 world0) with
  | Some (Go (st, _)) =>
    ret st = Z_STREAM_END
    /\ option_map r_code (finish st) = Some Z_OK
    /\ map len (chain st ++ [outdata st]) = [131072; 1]
    /\ all_but_last_full (chain st ++ [outdata st]) = false
  | _ => False
  end.
Proof. vm_compute. repeat split. Qed.

(** The points and the final chain of the run on the stream of [AB]. *)
Lemma chain_is_sliced_witness :
  match feed 10 (compress [x41; x42]) (entry 0 7 world0) with
  | Some (Go (st, rest)) =>
    (forall k st',
       (k, st') ∈ feed_points 10 0 (compress [x41; x42]) (entry 0 7 world0) ->
       fragments_ok k st'
       /\ Forall (fun nd => 0 <= len nd <= CHUNK) (chain st' ++ [outdata st']))
    /\ exists k,
         last (feed_points 10 0 (compress [x41; x42]) (entry 0 7 world0))
         = Some (k, st)
         /\ rest = drop (k * Z.to_nat CHUNK) (compress [x41; x42])
         /\ (k * Z.to_nat CHUNK
             < length (compress [x41; x42]) + Z.to_nat CHUNK)%nat
         /\ ((sliced_by k (chain st)
              /\ outdata st = zeroed_node (addr (outdata st)))
             \/ (sliced_by k (chain st ++ [outdata st])
                 /\ ret st = Z_STREAM_END))
         /\ Forall (fun nd => 0 <= len nd <= CHUNK) (chain st ++ [outdata st])
  | _ => False
  end.
Proof.
  assert (Hgo : left_normally (feed 10 (compress [x41; x42]) (entry 0 7 world0)) = true)
    by (vm_compute; reflexivity).
  destruct (feed 10 (compress [x41; x42]) (entry 0 7 world0))
    as [[[st rest]|c p|]|] eqn:E; try discriminate Hgo.
  destruct (chain_is_sliced 10 (compress [x41; x42]) 0 7 world0) as [Hp Hx].
  split; [exact Hp | exact (Hx st rest E)].
Defined.

(** C5.  After [gst_gzdec_process_data] has decoded a five-byte buffer,
    the buffer holds five [0xff] bytes, not the bytes it was given. *)
Theorem process_data_overwrites_input :
  match gst_gzdec_process_data 10 (compress [x41; x42]) 7 world0 with
  | Some (Some pd) =>
    pd_outbuf pd = [x41; x42]
    /\ pd_buf pd = [xff; xff; xff; xff; xff]
    /\ pd_buf pd <> compress [x41; x42]
  | _ => False
  end.
Proof. vm_compute. repeat split. discriminate. Qed.

(** C6.  On a corrupt first byte [decode_message] returns
    [Z_DATA_ERROR] with the head node (block 0) and its [CHUNK] block
    (block 1) still allocated, on a heap that was empty before. *)
Theorem fatal_return_leaks_chain :
  match decode_message 10 [x07] (None, []) 0 7 world0 with
  | Some (Some r) =>
    r_code r = Z_DATA_ERROR
    /\ live (hp world0) = ∅
    /\ live (hp (r_world r)) = {[ 0%nat; 1%nat ]}
  | _ => False
  end.
Proof. vm_compute. repeat split. Qed.

(** ** Runs for the further properties *)

(** The stream of [AB] cut after the tag of its second item. *)
Lemma truncated_stream_is_data_error_witness :
  (0 < 3 < length (compress [x41; x42]))%nat
  /\ Z.of_nat (length [x41; x42]) < gulong_max
  /\ (3 + length [x41; x42] < 10)%nat
  /\ exists r p,
       decode_message 10 (take 3 (compress [x41; x42])) (None, []) 0 7
         (snd (init_decoder heap0))
       = Some (Some r)
       /\ r_code r = Z_DATA_ERROR
       /\ r_bytes r = take p [x41; x42]
       /\ r_outlen r = Z.of_nat (length (r_bytes r)).
Proof.
  split; [simpl; lia |]. split; [reflexivity |]. split; [simpl; lia |].
  apply (truncated_stream_is_data_error compress expects toy_decodes);
    [simpl; lia | reflexivity | simpl; lia].
Defined.

(** The stream of [AB] and one more byte, cut inside the second item;
    the peer downstream answers 0, [GST_FLOW_OK]. *)
Lemma stream_in_two_buffers_witness :
  [x01; x41; x01] ++ [x42; x00; xff] = compress [x41; x42] ++ [xff]
  /\ [x01; x41; x01] <> [] /\ [x42; x00; xff] <> []
  /\ Z.of_nat (length (compress [x41; x42] ++ [xff])) < gint_max
  /\ Z.of_nat (length [x41; x42]) < gulong_max
  /\ (length (compress [x41; x42] ++ [xff]) + length [x41; x42] < 10)%nat
  /\ exists o1 o2 el1 el2,
       gst_gzdec_chain (fun _ => 0) 10 [x01; x41; x01] 7
         {| el_world := snd (init_decoder heap0); el_pushed := [] |}
       = Some (Some (0, el1))
       /\ gst_gzdec_chain (fun _ => 0) 10 [x42; x00; xff] 7 el1
          = Some (Some (0, el2))
       /\ el_pushed el2 = [o1; o2]
       /\ pushed_bytes (el_pushed el2) = [x41; x42]
       /\ ob_size o1 + ob_size o2 = Z.of_nat (length [x41; x42]).
Proof.
  split; [reflexivity |]. split; [discriminate |]. split; [discriminate |].
  split; [reflexivity |]. split; [reflexivity |]. split; [simpl; lia |].
  apply (stream_in_two_buffers (fun _ => 0) compress expects toy_decodes
           [x41; x42] [xff] [x01; x41; x01] [x42; x00; xff] 7 7 heap0 10);
    [reflexivity | discriminate | discriminate | reflexivity | reflexivity
    | simpl; lia].
Defined.

(** The stream of [AB], and then the stream of [C] in a buffer of its
    own. *)
Lemma buffer_after_stream_end_is_swallowed_witness :
  compress [x43] <> []
  /\ Z.of_nat (length (compress [x41; x42] ++ [])) < gint_max
  /\ Z.of_nat (length (compress [x43])) < gint_max
  /\ Z.of_nat (length [x41; x42]) < gulong_max
  /\ (length (compress [x41; x42] ++ []) + length [x41; x42] < 10)%nat
  /\ (length (compress [x43]) < 10)%nat
  /\ exists o1 o2 el1 el2,
       gst_gzdec_chain (fun _ => 0) 10 (compress [x41; x42] ++ []) 7
         {| el_world := snd (init_decoder heap0); el_pushed := [] |}
       = Some (Some (0, el1))
       /\ ob_bytes o1 = [x41; x42]
       /\ gst_gzdec_chain (fun _ => 0) 10 (compress [x43]) 7 el1
          = Some (Some (0, el2))
       /\ ob_data o2 = None /\ ob_bytes o2 = [] /\ ob_size o2 = 0.
Proof.
  split; [discriminate |]. split; [reflexivity |]. split; [reflexivity |].
  split; [reflexivity |]. split; [simpl; lia |]. split; [simpl; lia |].
  apply (buffer_after_stream_end_is_swallowed (fun _ => 0) compress expects
           toy_decodes [x41; x42] [] (compress [x43]) 7 7 heap0 10);
    [discriminate | reflexivity | reflexivity | reflexivity | simpl; lia
    | simpl; lia].
Defined.

(** A first slice of 131072 items and then an item that asks for a
    dictionary: the first call stores 131072 bytes, the second is
    fatal. *)
Lemma chain_pushes_after_fatal_code_witness :
  match decode_message 10
          (take (Z.to_nat 262144) (compress (replicate (Z.to_nat 131072) x41))
           ++ [x02])
          (None, []) 0 7 world0 with
  | Some (Some r) =>
    Z.of_nat (length (take (Z.to_nat 262144)
                        (compress (replicate (Z.to_nat 131072) x41)) ++ [x02]))
    < gint_max
    /\ Exists (fun c => fatal (ir_ret c) = true) (r_log r)
    /\ exists earlier c ob,
         r_log r = earlier ++ [c]
         /\ fatal (ir_ret c) = true
         /\ gst_gzdec_chain (fun _ => 0) 10
              (take (Z.to_nat 262144) (compress (replicate (Z.to_nat 131072) x41))
               ++ [x02])
              7 {| el_world := world0; el_pushed := [] |}
            = Some (Some (0, {| el_world := r_world r; el_pushed := [] ++ [ob] |}))
         /\ ob_data ob = None /\ ob_bytes ob = []
         /\ ob_size ob = Z.of_nat (length (produced earlier)) mod gulong_max
  | _ => False
  end.
Proof.
  assert (Ht : match decode_message 10
                       (take (Z.to_nat 262144)
                          (compress (replicate (Z.to_nat 131072) x41)) ++ [x02])
                       (None, []) 0 7 world0 with
               | Some (Some r) => existsb (fun c => fatal (ir_ret c)) (r_log r)
               | _ => false
               end = true) by (vm_compute; reflexivity).
  destruct (decode_message 10 _ (None, []) 0 7 world0) as [[r|]|] eqn:E;
    try discriminate Ht.
  assert (Hex : Exists (fun c => fatal (ir_ret c) = true) (r_log r)).
  { apply existsb_exists in Ht as (c & Hin & Hc).
    apply Exists_exists. exists c. split; [| exact Hc].
    apply list_elem_of_In, Hin. }
  assert (Hint : Z.of_nat (length (take (Z.to_nat 262144)
                                      (compress (replicate (Z.to_nat 131072) x41))
                                    ++ [x02])) < gint_max)
    by (vm_compute; reflexivity).
  split; [exact Hint |]. split; [exact Hex |].
  exact (chain_pushes_after_fatal_code (fun _ => 0) 10 _ 7
           {| el_world := world0; el_pushed := [] |} r Hint E Hex).
Defined.

(** The same run through [gst_gzdec_chain]: the buffer pushed is built
    from NULL and the size 131072. *)
Lemma null_buffer_with_a_size :
  match gst_gzdec_chain (fun _ => 0) 10
          (take (Z.to_nat 262144) (compress (replicate (Z.to_nat 131072) x41))
           ++ [x02])
          7 {| el_world := world0; el_pushed := [] |} with
  | Some (Some (_, el)) =>
    map (fun ob => (ob_data ob, ob_bytes ob, ob_size ob)) (el_pushed el)
    = [(None, [], 131072)]
  | _ => False
  end.
Proof. vm_compute. reflexivity. Qed.

(** The stream of [AB] on an empty heap: the heap afterwards holds the
    result buffer and nothing else. *)
Lemma normal_return_frees_chain_witness :
  heap_wf (hp world0)
  /\ exists r,
       decode_message 10 (compress [x41; x42]) (None, []) 0 7 world0
       = Some (Some r)
       /\ Forall (fun c => fatal (ir_ret c) = false) (r_log r)
       /\ live (hp (r_world r)) = live (hp world0) ∪ ptr_set (r_outmsg r).
Proof.
  split; [exact heap0_wf |].
  assert (E : exists r,
             decode_message 10 (compress [x41; x42]) (None, []) 0 7 world0
             = Some (Some r)
             /\ Forall (fun c => fatal (ir_ret c) = false) (r_log r))
    by (eexists; split; [vm_compute; reflexivity | repeat constructor]).
  destruct E as (r & E & Hnf).
  exists r. split; [exact E |]. split; [exact Hnf |].
  exact (normal_return_frees_chain 10 _ (None, []) 0 7 world0 r heap0_wf E Hnf).
Defined.

(** A corrupt first byte on an empty heap. *)
Lemma every_fatal_return_leaks_witness :
  heap_wf (hp world0)
  /\ exists r,
       decode_message 10 [x07] (None, []) 0 7 world0 = Some (Some r)
       /\ Exists (fun c => fatal (ir_ret c) = true) (r_log r)
       /\ brk (hp world0) ∈ live (hp (r_world r))
       /\ brk (hp world0) ∉ live (hp world0).
Proof.
  split; [exact heap0_wf |].
  assert (E : exists r,
             decode_message 10 [x07] (None, []) 0 7 world0 = Some (Some r)
             /\ Exists (fun c => fatal (ir_ret c) = true) (r_log r))
    by (eexists; split; [vm_compute; reflexivity | constructor; reflexivity]).
  destruct E as (r & E & Hex).
  exists r. split; [exact E |]. split; [exact Hex |].
  exact (every_fatal_return_leaks 10 _ (None, []) 0 7 world0 r heap0_wf E Hex).
Defined.

(** The stream of [AB] on an empty heap. *)
Lemma call_keeps_caller_blocks_witness :
  heap_wf (hp world0)
  /\ exists r,
       decode_message 10 (compress [x41; x42]) (None, []) 0 7 world0
       = Some (Some r)
       /\ live (hp world0) ⊆ live (hp (r_world r))
       /\ heap_wf (hp (r_world r))
       /\ (brk (hp world0) < brk (hp (r_world r)))%nat.
Proof.
  split; [exact heap0_wf |].
  assert (E : exists r,
             decode_message 10 (compress [x41; x42]) (None, []) 0 7 world0
             = Some (Some r))
    by (eexists; vm_compute; reflexivity).
  destruct E as (r & E).
  exists r. split; [exact E |].
  exact (call_keeps_caller_blocks 10 _ (None, []) 0 7 world0 r heap0_wf E).
Defined.

(** A stream whose second item asks for a dictionary. *)
Lemma return_code_is_one_of_four_witness :
  exists r,
    decode_message 10 [x01; x41; x02] (None, []) 0 7 world0 = Some (Some r)
    /\ (r_code r = Z_OK \/ r_code r = Z_DATA_ERROR \/ r_code r = Z_MEM_ERROR
        \/ r_code r = Z_STREAM_ERROR).
Proof.
  assert (E : exists r,
             decode_message 10 [x01; x41; x02] (None, []) 0 7 world0
             = Some (Some r))
    by (eexists; vm_compute; reflexivity).
  destruct E as (r & E).
  exists r. split; [exact E |].
  exact (return_code_is_one_of_four 10 _ (None, []) 0 7 world0 r E).
Defined.

(** A stream cut after its first item. *)
Lemma ok_iff_last_call_ended_stream_witness :
  exists r,
    decode_message 10 [x01; x41] (None, []) 0 7 world0 = Some (Some r)
    /\ (r_code r = Z_OK <-> default 7 (last (codes (r_log r))) = Z_STREAM_END).
Proof.
  assert (E : exists r,
             decode_message 10 [x01; x41] (None, []) 0 7 world0 = Some (Some r))
    by (eexists; vm_compute; reflexivity).
  destruct E as (r & E).
  exists r. split; [exact E |].
  exact (ok_iff_last_call_ended_stream 10 _ (None, []) 0 7 world0 r E).
Defined.
